(** * xpmem_bench: a shallow embedding of the benchmark harness

    Part I follows the C sources:
    - [Common]    : common.h (size table, pattern generator and verifier,
                    timer, reporting helpers);
    - [Importer]  : xpmem_importer.c (the three consumer-side benchmarks
                    and [main]);
    - [ShmBench]  : shm_bench.c (parent and child after [fork], as a
                    two-process interleaving semantics over the shared
                    control record);
    and adds what the properties are stated with:
    - [Trace]     : observations on the output (result rows, verifier
                    calls, summary calls);
    - [Protocol]  : the invariants of the handshake and a schedule that
                    completes it;
    - [Samples]   : the concrete inputs of the examples.
    Part II holds the proofs.

    Conventions.  [size_t] and [uint64_t] are 64-bit unsigned integers,
    modelled as [Z] with the wrap-around written out; [int] is a 32-bit
    signed integer; [double] is IEEE-754 binary64, modelled by Rocq's
    primitive floats.  A memory region is a capacity together with its
    contents, and every access outside the capacity is a fault ([None]).
    The clock, the allocator and the descriptor file are inputs. *)

From Stdlib Require Import ZArith List Bool Lia String Floats QArith Sorted.
Import ListNotations.

Local Open Scope Z_scope.

(* ================================================================== *)
(** * Part I.  The programs                                            *)
(* ================================================================== *)

Module Common.

(** ** Machine integers *)

Definition SIZE_MAX : Z := 2 ^ 64 - 1.

(** A value of type [size_t]. *)
Definition is_size_t (n : Z) : Prop := 0 <= n <= SIZE_MAX.

(** Unsigned 64-bit wrap-around, for [size_t] and [uint64_t] arithmetic. *)
Definition wrap64 (n : Z) : Z := n mod 2 ^ 64.

(** The conversion [(uint8_t) n]. *)
Definition uint8 (n : Z) : Z := n mod 256.

(** ** Configuration (common.h, lines 26-39) *)

Definition TEST_SIZES : list Z :=
  [ 4 * 1024;                (*   4 KB *)
    64 * 1024;               (*  64 KB *)
    1 * 1024 * 1024;         (*   1 MB *)
    16 * 1024 * 1024;        (*  16 MB *)
    64 * 1024 * 1024;        (*  64 MB *)
    256 * 1024 * 1024;       (* 256 MB *)
    512 * 1024 * 1024;       (* 512 MB *)
    1024 * 1024 * 1024 ].    (*   1 GB *)

Definition NUM_TEST_SIZES : Z := Z.of_nat (List.length TEST_SIZES).

Definition REPEAT_COUNT : Z := 5.

(** ** Memory regions *)

(** A region of [capacity] bytes; [byte_at] gives the byte stored at each
    offset below the capacity. *)
Record buffer : Type := mkBuffer {
  capacity : Z;
  byte_at : Z -> Z
}.

Definition in_bounds (b : buffer) (i : Z) : bool :=
  (0 <=? i) && (i <? capacity b).

(** [p[i]] as an rvalue. *)
Definition load (b : buffer) (i : Z) : option Z :=
  if in_bounds b i then Some (byte_at b i) else None.

(** [p[i] = v]. *)
Definition store (b : buffer) (i v : Z) : option buffer :=
  if in_bounds b i
  then Some (mkBuffer (capacity b)
                      (fun j => if j =? i then v else byte_at b j))
  else None.

(** [memset(b, v, n)]. *)
Definition memset (b : buffer) (v n : Z) : option buffer :=
  if (0 <=? n) && (n <=? capacity b)
  then Some (mkBuffer (capacity b)
                      (fun j => if (0 <=? j) && (j <? n) then uint8 v
                                else byte_at b j))
  else None.

(** [memcpy(dst, src, n)] for two disjoint regions. *)
Definition memcpy (dst src : buffer) (n : Z) : option buffer :=
  if (0 <=? n) && (n <=? capacity dst) && (n <=? capacity src)
  then Some (mkBuffer (capacity dst)
                      (fun j => if (0 <=? j) && (j <? n) then byte_at src j
                                else byte_at dst j))
  else None.

(** ** Pattern generator and verifier (common.h, lines 78-95) *)

(** The loop of [fill_pattern]: [n] iterations remain ([n = size - i]). *)
Fixpoint fill_loop (n : nat) (p : buffer) (i : Z) : option buffer :=
  match n with
  | O => Some p
  | S n' =>
      match store p i (uint8 (Z.land i 255)) with
      | Some p' => fill_loop n' p' (wrap64 (i + 1))
      | None => None
      end
  end.

Definition fill_pattern (buf : buffer) (size : Z) : option buffer :=
  fill_loop (Z.to_nat size) buf 0.

(** The loop of [verify_pattern]: [n] iterations remain.  The result is the
    returned [size_t]. *)
Fixpoint verify_loop (n : nat) (p : buffer) (i : Z) : option Z :=
  match n with
  | O => Some 0
  | S n' =>
      match load p i with
      | Some b =>
          if negb (b =? uint8 (Z.land i 255))
          then Some (wrap64 (i + 1))
          else verify_loop n' p (wrap64 (i + 1))
      | None => None
      end
  end.

Definition verify_pattern (buf : buffer) (size : Z) : option Z :=
  verify_loop (Z.to_nat size) buf 0.

(** ** Floating point *)

(** C's [double]: IEEE-754 binary64 with round-to-nearest-even. *)
Definition double : Type := float.

(** The conversion [(double) n] of an integer, correctly rounded. *)
Definition double_of_Z (n : Z) : double :=
  SF2Prim (binary_normalize prec emax n 0 false).

(** The arithmetic that the reporting code uses on elapsed times.  The
    programs run it at [double]; the instance at [Q] further down is the
    same arithmetic without rounding. *)
Class Arith (D : Type) : Type := {
  of_Z : Z -> D;
  add : D -> D -> D;
  mul : D -> D -> D;
  div : D -> D -> D;
  ltb : D -> D -> bool
}.

#[export] Instance double_arith : Arith double := {|
  of_Z := double_of_Z;
  add := PrimFloat.add;
  mul := PrimFloat.mul;
  div := PrimFloat.div;
  ltb := PrimFloat.ltb
|}.

(** Exact rational arithmetic ([x < y] decided by [Qle_bool]). *)
#[export] Instance exact_arith : Arith Q := {|
  of_Z := inject_Z;
  add := Qplus;
  mul := Qmult;
  div := Qdiv;
  ltb := fun x y => negb (Qle_bool y x)
|}.

(** ** Observable behaviour *)

Inductive stream : Type := Stdout | Stderr.

(** What a process prints, and the calls that the properties below count.
    Fixed messages are identified by an English gloss of their text. *)
Inductive event : Type :=
  | Text (fd : stream) (gloss : string)
  (** a row of [print_result]: method, size, iteration, elapsed seconds,
      bandwidth in GB/s, latency in microseconds *)
  | ResultRow (method : string) (size iteration : Z)
              (elapsed bandwidth latency : double)
  (** a call [print_summary(method, size, times, count)] and the row it
      prints: mean and mean bandwidth, minimum, maximum *)
  | SummaryRow (method : string) (size : Z) (times : list double) (count : Z)
               (avg_t avg_bw min_t max_t : double)
  (** a call [verify_pattern(buf, size)] and its result *)
  | Verify (size result : Z)
  (** "data verification OK" on stdout *)
  | VerifyOk
  (** "data mismatch! offset=..." on stderr *)
  | Mismatch (offset : Z).

(** ** The sequential world: clock, allocator, output *)

Record timespec : Type := mkTimespec { tv_sec : Z; tv_nsec : Z }.

Record world : Type := mkWorld {
  (** the successive readings of [CLOCK_MONOTONIC] *)
  clock : nat -> timespec;
  ticks : nat;
  (** [posix_memalign]: the k-th request fails ([None]) or returns a block
      with the given (indeterminate) contents *)
  heap : nat -> option (Z -> Z);
  allocs : nat;
  (** everything printed so far, oldest first *)
  output : list event
}.

(** Computations that read the clock, allocate, print, and may fault. *)
Definition M (A : Type) : Type := world -> option (A * world).

Definition ret {A : Type} (a : A) : M A := fun w => Some (a, w).

Definition bind {A B : Type} (m : M A) (k : A -> M B) : M B :=
  fun w => match m w with
           | Some (a, w') => k a w'
           | None => None
           end.

(** A memory access that faults aborts the computation. *)
Definition lift {A : Type} (o : option A) : M A :=
  fun w => match o with
           | Some a => Some (a, w)
           | None => None
           end.

Definition emit (e : event) : M unit :=
  fun w => Some (tt, mkWorld (clock w) (ticks w) (heap w) (allocs w)
                             (output w ++ [e])).

Declare Scope monad_scope.
Delimit Scope monad_scope with monad.
Notation "x <- m ;; k" := (bind m (fun x => k))
  (at level 61, m at next level, right associativity) : monad_scope.
Notation "' pat <- m ;; k" := (bind m (fun x => match x with pat => k end))
  (at level 61, pat pattern, m at next level, right associativity)
  : monad_scope.
Notation "m ;; k" := (bind m (fun _ => k))
  (at level 61, right associativity) : monad_scope.
Local Open Scope monad_scope.

(** ** Timer (common.h, lines 53-58) *)

(** The literal [1e-9], i.e. the nearest double. *)
Definition d1e_9 : double := 0x1.12e0be826d695p-30%float.

(** The literal [1e6]. *)
Definition d1e6 : double := 1000000%float.

Definition get_time_sec : M double :=
  fun w =>
    let ts := clock w (ticks w) in
    Some (PrimFloat.add (double_of_Z (tv_sec ts))
                        (PrimFloat.mul (double_of_Z (tv_nsec ts)) d1e_9),
          mkWorld (clock w) (S (ticks w)) (heap w) (allocs w) (output w)).

(** ** Allocation (common.h, lines 155-163) *)

Definition alloc_aligned (size : Z) : M (option buffer) :=
  fun w =>
    let w' := mkWorld (clock w) (ticks w) (heap w) (S (allocs w)) (output w) in
    match heap w (allocs w) with
    | Some contents => Some (Some (mkBuffer size contents), w')
    | None =>
        Some (None, mkWorld (clock w) (ticks w) (heap w) (S (allocs w))
                            (output w ++ [Text Stderr "perror: posix_memalign"]))
    end.

(** ** Local arrays *)

(** [a[i]] as an rvalue; an index outside the array is a fault. *)
Definition array_get {A : Type} (a : list A) (i : Z) : option A :=
  if 0 <=? i then nth_error a (Z.to_nat i) else None.

(** [a[i] = v]. *)
Definition array_set {A : Type} (a : list A) (i : Z) (v : A)
  : option (list A) :=
  if (0 <=? i) && (i <? Z.of_nat (List.length a))
  then Some (firstn (Z.to_nat i) a ++ v :: skipn (S (Z.to_nat i)) a)
  else None.

(** ** Reporting (common.h, lines 121-151) *)

(** [1024.0 * 1024 * 1024]. *)
Definition GIB {D : Type} `{Arith D} : D :=
  mul (mul (of_Z 1024) (of_Z 1024)) (of_Z 1024).

Definition print_result (method : string) (size : Z) (elapsed_sec : double)
    (iteration : Z) : M unit :=
  let bandwidth_gbps := div (div (of_Z size) elapsed_sec) GIB in
  let latency_us := mul elapsed_sec d1e6 in
  emit (ResultRow method size iteration elapsed_sec bandwidth_gbps latency_us).

(** The four numbers of a summary row. *)
Record stats (D : Type) : Type := mkStats {
  avg_t : D;
  avg_bw : D;
  min_t : D;
  max_t : D
}.
Arguments mkStats {D} _ _ _ _.
Arguments avg_t {D} _.
Arguments avg_bw {D} _.
Arguments min_t {D} _.
Arguments max_t {D} _.

Section Summary.
Context {D : Type} `{Arith D}.

(** The body of the loop of [print_summary] on [(min_t, max_t, sum_t)],
    with [t = times[i]]. *)
Definition summary_step (acc : D * D * D) (t : D) : D * D * D :=
  let '(mn, mx, sm) := acc in
  ((if ltb t mn then t else mn), (if ltb mx t then t else mx), add sm t).

(** The loop of [print_summary]: [n] iterations remain
    ([n = count - i]). *)
Fixpoint summary_loop (n : nat) (times : list D) (i : Z) (acc : D * D * D)
  : option (D * D * D) :=
  match n with
  | O => Some acc
  | S n' =>
      match array_get times i with
      | Some t => summary_loop n' times (i + 1) (summary_step acc t)
      | None => None
      end
  end.

(** The numbers that [print_summary(method, size, times, count)] prints;
    [None] when it reads outside [times]. *)
Definition summarize (size : Z) (times : list D) (count : Z)
  : option (stats D) :=
  match array_get times 0 with
  | Some t0 =>
      match summary_loop (Z.to_nat count) times 0 (t0, t0, of_Z 0) with
      | Some (mn, mx, sm) =>
          let avg := div sm (of_Z count) in
          let bw := div (div (of_Z size) avg) GIB in
          Some (mkStats avg bw mn mx)
      | None => None
      end
  | None => None
  end.
End Summary.

Definition print_summary (method : string) (size : Z) (times : list double)
    (count : Z) : M unit :=
  st <- lift (summarize size times count);;
  emit (SummaryRow method size times count
                   (avg_t st) (avg_bw st) (min_t st) (max_t st)).

(** [verify_pattern] as called by a benchmark: the call is recorded. *)
Definition call_verify_pattern (buf : buffer) (size : Z) : M Z :=
  err <- lift (verify_pattern buf size);;
  emit (Verify size err);;
  ret err.

End Common.

Module Importer.
Import Common.
Local Open Scope monad_scope.

(** The local array [double times[REPEAT_COUNT]].  Its initial contents are
    indeterminate; the repeat loop writes every element before
    [print_summary] reads it. *)
Definition fresh_times : list double :=
  List.repeat PrimFloat.zero (Z.to_nat REPEAT_COUNT).

(** ** bench_xpmem_memcpy (xpmem_importer.c, lines 26-67) *)

(** The repeat loop, [n = REPEAT_COUNT - r] iterations remaining. *)
Fixpoint memcpy_repeats (n : nat) (attached_ptr local_buf : buffer)
    (size : Z) (times : list double) (r : Z) : M (buffer * list double) :=
  match n with
  | O => ret (local_buf, times)
  | S n' =>
      local_buf <- lift (memset local_buf 0 size);;
      t0 <- get_time_sec;;
      local_buf <- lift (memcpy local_buf attached_ptr size);;
      t1 <- get_time_sec;;
      times <- lift (array_set times r (PrimFloat.sub t1 t0));;
      elapsed <- lift (array_get times r);;
      print_result "xpmem-cpy" size elapsed (r + 1);;
      (if r =? 0 then
         err <- call_verify_pattern local_buf size;;
         if negb (err =? 0) then emit (Mismatch (wrap64 (err - 1)))
         else emit VerifyOk
       else ret tt);;
      memcpy_repeats n' attached_ptr local_buf size times (r + 1)
  end.

(** The size loop over the remaining entries of the table. *)
Fixpoint memcpy_sizes (sizes : list Z) (attached_ptr local_buf : buffer)
    (max_size : Z) : M buffer :=
  match sizes with
  | [] => ret local_buf
  | size :: rest =>
      if size >? max_size then ret local_buf      (* break *)
      else
        '(local_buf, times) <-
          memcpy_repeats (Z.to_nat REPEAT_COUNT) attached_ptr local_buf
                         size fresh_times 0;;
        print_summary "xpmem-cpy" size times REPEAT_COUNT;;
        emit (Text Stdout "");;
        memcpy_sizes rest attached_ptr local_buf max_size
  end.

Definition bench_xpmem_memcpy (attached_ptr local_buf : buffer)
    (max_size : Z) : M buffer :=
  emit (Text Stdout "--- xpmem memcpy benchmark ---");;
  emit (Text Stdout "  (remote process memory -> local buffer, memcpy)");;
  memcpy_sizes TEST_SIZES attached_ptr local_buf max_size.

(** ** bench_xpmem_direct (xpmem_importer.c, lines 73-107) *)

(** [p[i]] for [const uint64_t *p]: eight bytes, little-endian. *)
Definition load64 (b : buffer) (i : Z) : option Z :=
  if (0 <=? i) && (8 * i + 8 <=? capacity b)
  then Some (fold_right (fun k acc => byte_at b (8 * i + k) + 256 * acc) 0
                        [0; 1; 2; 3; 4; 5; 6; 7])
  else None.

(** [sizeof(uint64_t)]. *)
Definition SIZEOF_UINT64 : Z := 8.

(** [size_t count = size / sizeof(uint64_t)]. *)
Definition direct_word_count (size : Z) : Z := size / SIZEOF_UINT64.

(** The traversal loop: [n = count - i] words remain. *)
Fixpoint direct_sum (n : nat) (p : buffer) (i checksum : Z) : option Z :=
  match n with
  | O => Some checksum
  | S n' =>
      match load64 p i with
      | Some v => direct_sum n' p (wrap64 (i + 1)) (wrap64 (checksum + v))
      | None => None
      end
  end.

Fixpoint direct_repeats (n : nat) (attached_ptr : buffer) (size : Z)
    (times : list double) (r : Z) : M (list double) :=
  match n with
  | O => ret times
  | S n' =>
      let count := direct_word_count size in
      t0 <- get_time_sec;;
      _ <- lift (direct_sum (Z.to_nat count) attached_ptr 0 0);;
      t1 <- get_time_sec;;
      times <- lift (array_set times r (PrimFloat.sub t1 t0));;
      elapsed <- lift (array_get times r);;
      print_result "xpmem-dir" size elapsed (r + 1);;
      direct_repeats n' attached_ptr size times (r + 1)
  end.

Fixpoint direct_sizes (sizes : list Z) (attached_ptr : buffer)
    (max_size : Z) : M unit :=
  match sizes with
  | [] => ret tt
  | size :: rest =>
      if size >? max_size then ret tt             (* break *)
      else
        times <- direct_repeats (Z.to_nat REPEAT_COUNT) attached_ptr size
                                fresh_times 0;;
        print_summary "xpmem-dir" size times REPEAT_COUNT;;
        emit (Text Stdout "");;
        direct_sizes rest attached_ptr max_size
  end.

Definition bench_xpmem_direct (attached_ptr : buffer) (max_size : Z)
  : M unit :=
  emit (Text Stdout "--- xpmem direct access (zero copy) benchmark ---");;
  emit (Text Stdout "  (remote memory loaded and traversed in place)");;
  direct_sizes TEST_SIZES attached_ptr max_size.

(** ** bench_local_memcpy (xpmem_importer.c, lines 112-151) *)

Fixpoint local_repeats (n : nat) (src dst : buffer) (size : Z)
    (times : list double) (r : Z) : M (buffer * list double) :=
  match n with
  | O => ret (dst, times)
  | S n' =>
      dst <- lift (memset dst 0 size);;
      t0 <- get_time_sec;;
      dst <- lift (memcpy dst src size);;
      t1 <- get_time_sec;;
      times <- lift (array_set times r (PrimFloat.sub t1 t0));;
      elapsed <- lift (array_get times r);;
      print_result "LOCAL-cpy" size elapsed (r + 1);;
      local_repeats n' src dst size times (r + 1)
  end.

Fixpoint local_sizes (sizes : list Z) (src dst : buffer) (max_size : Z)
  : M unit :=
  match sizes with
  | [] => ret tt
  | size :: rest =>
      if size >? max_size then ret tt             (* break *)
      else
        '(dst, times) <-
          local_repeats (Z.to_nat REPEAT_COUNT) src dst size fresh_times 0;;
        print_summary "LOCAL-cpy" size times REPEAT_COUNT;;
        emit (Text Stdout "");;
        local_sizes rest src dst max_size
  end.

Definition bench_local_memcpy (max_size : Z) : M unit :=
  emit (Text Stdout "--- local memcpy benchmark (baseline) ---");;
  emit (Text Stdout "  (memcpy inside one process)");;
  src <- alloc_aligned max_size;;
  dst <- alloc_aligned max_size;;
  match src, dst with
  | Some src, Some dst =>
      src <- lift (memset src 170 max_size);;      (* 0xAA *)
      dst <- lift (memset dst 0 max_size);;
      local_sizes TEST_SIZES src dst max_size
  | _, _ =>
      emit (Text Stderr "local buffer allocation failed")
  end.

(** Both allocations of [bench_local_memcpy] succeed in world [w]. *)
Definition local_buffers_available (w : world) : bool :=
  match heap w (allocs w), heap w (S (allocs w)) with
  | Some _, Some _ => true
  | _, _ => false
  end.

(** ** main (xpmem_importer.c, lines 153-254) *)

(** What [fscanf(fp, "%lld\n%zu\n%d", ...)] did on the descriptor file: its
    return value (the number of fields converted, or [EOF = -1]) and the
    three variables it was given. *)
Record descriptor : Type := mkDescriptor {
  fields : Z;
  segid_ll : Z;
  max_size : Z;
  exporter_pid : Z
}.

(** The environment of one run of the importer. *)
Record env : Type := mkEnv {
  (** [access(READY_FILE)] fails this many times before the file is seen *)
  ready_polls : nat;
  (** [fopen(SEGID_FILE)]: [None] when it fails *)
  segid_file : option descriptor;
  (** [xpmem_get]: the access permit, [-1] on failure *)
  xpmem_get_result : Z;
  (** [xpmem_attach]: the contents of the attached region, [None] for
      [(void * )-1] *)
  xpmem_attach_result : option (Z -> Z)
}.

(** [wait_for_file]: polls that fail (each followed by [usleep(10000)]),
    then the poll that succeeds. *)
Fixpoint wait_for_file (failing_polls : nat) : M unit :=
  match failing_polls with
  | O => ret tt
  | S n => wait_for_file n
  end.

Definition main (e : env) : M Z :=
  emit (Text Stdout "=== xpmem Importer / benchmark ===");;
  emit (Text Stdout "PID: <getpid>");;
  emit (Text Stdout "waiting for the exporter to be ready...");;
  wait_for_file (ready_polls e);;
  match segid_file e with
  | None =>
      emit (Text Stderr "perror: cannot read the segment id file");;
      ret 1
  | Some d =>
      if negb (fields d =? 3) then
        emit (Text Stderr "segment id file has an invalid format");;
        ret 1
      else
        let max_size := max_size d in
        emit (Text Stdout "exporter PID: <exporter_pid>");;
        emit (Text Stdout "segment id: <segid>");;
        emit (Text Stdout "max size: <format_size(max_size)>");;
        emit (Text Stdout "xpmem_get()...");;
        if xpmem_get_result e =? -1 then
          emit (Text Stderr "perror: xpmem_get failed");;
          ret 1
        else
          emit (Text Stdout "APID: <apid>");;
          emit (Text Stdout "xpmem_attach()...");;
          match xpmem_attach_result e with
          | None =>
              emit (Text Stderr "perror: xpmem_attach failed");;
              ret 1
          | Some contents =>
              let attached_ptr := mkBuffer max_size contents in
              emit (Text Stdout "attached at: <address>");;
              local_buf <- alloc_aligned max_size;;
              match local_buf with
              | None =>
                  emit (Text Stderr "local buffer allocation failed");;
                  ret 1
              | Some local_buf =>
                  emit (Text Stdout "benchmark start");;
                  emit (Text Stdout "repeat count: <REPEAT_COUNT>");;
                  _ <- bench_xpmem_memcpy attached_ptr local_buf max_size;;
                  bench_xpmem_direct attached_ptr max_size;;
                  bench_local_memcpy max_size;;
                  emit (Text Stdout "benchmark complete");;
                  emit (Text Stdout "importer finished");;
                  ret 0
              end
          end
  end.

End Importer.

Module ShmBench.
Import Common.
Local Open Scope monad_scope.

(** ** The shared control record (shm_bench.c, lines 18-24) *)

Record shm_control_t : Type := mkCtrl {
  phase : Z;             (* 0: idle, 1: data ready, 2: copy complete *)
  data_size : Z;
  iteration : Z;
  copy_time : double;    (* the time measured by the child *)
  verify_err : Z         (* the verification result *)
}.

Definition REQUEST_POSTED : Z := 1.

(** [size_t max_size = TEST_SIZES[NUM_TEST_SIZES - 1]] (line 32). *)
Definition max_size : Z :=
  nth (Z.to_nat (NUM_TEST_SIZES - 1)) TEST_SIZES 0.

(** ** Accesses to the control record *)

Inductive actor : Type := Parent | Child.

Inductive field : Type :=
  F_phase | F_data_size | F_iteration | F_copy_time | F_verify_err.

Inductive access_kind : Type := Read | Write.

(** One access to a field of the control record by one process. *)
Record access : Type := mkAccess {
  who : actor;
  kind : access_kind;
  what : field
}.

(** ** The two processes after [fork] *)

(** Program points of the parent (lines 111-159). *)
Inductive parent_pc : Type :=
  | P_start          (* 113-114: the two header lines *)
  | P_size_loop      (* 116-120: loop test, [size], [break] *)
  | P_repeat_loop    (* 122: loop test *)
  | P_fill           (* 124 *)
  | P_set_size       (* 126 *)
  | P_set_iteration  (* 127 *)
  | P_post           (* 128 *)
  | P_wait           (* 131-133 *)
  | P_read_time      (* 135-136 *)
  | P_report         (* 138-145 *)
  | P_reset          (* 147, and [r++] *)
  | P_summary        (* 149-150, and [si++] *)
  | P_term_size      (* 154 *)
  | P_term_post      (* 155 *)
  | P_join           (* 156 *)
  | P_done.          (* 158-167 *)

Record parent : Type := mkParent {
  p_pc : parent_pc;
  si : Z;
  r : Z;
  p_size : Z;
  times : list double
}.

(** Program points of the child (lines 78-108). *)
Inductive child_pc : Type :=
  | C_alloc          (* 79-81 *)
  | C_poll           (* 85-87 *)
  | C_read_size      (* 89-90 *)
  | C_copy           (* 93-96 *)
  | C_write_time     (* 98 *)
  | C_verify         (* 101 *)
  | C_post           (* 104 *)
  | C_exited (status : Z).   (* [_exit(status)] *)

Record child : Type := mkChild {
  c_pc : child_pc;
  local_buf : option buffer;
  c_size : Z;
  elapsed : double          (* [t1 - t0] *)
}.

Record state : Type := mkState {
  ctrl : shm_control_t;
  shm_ptr : buffer;
  par : parent;
  chi : child;
  env : world;
  (** the accesses to the control record so far, newest first *)
  accesses : list access
}.

(** The state right after [fork]: both regions were created and zeroed by
    [memset] (lines 51 and 73). *)
Definition init (w : world) : state :=
  mkState (mkCtrl 0 0 0 PrimFloat.zero 0)
          (mkBuffer max_size (fun _ => 0))
          (mkParent P_start 0 0 0 [])
          (mkChild C_alloc None 0 PrimFloat.zero)
          w
          [].

Definition set_pc (p : parent) (pc : parent_pc) : parent :=
  mkParent pc (si p) (r p) (p_size p) (times p).

Definition set_cpc (c : child) (pc : child_pc) : child :=
  mkChild pc (local_buf c) (c_size c) (elapsed c).

Definition set_phase (c : shm_control_t) (v : Z) : shm_control_t :=
  mkCtrl v (data_size c) (iteration c) (copy_time c) (verify_err c).

Definition set_data_size (c : shm_control_t) (v : Z) : shm_control_t :=
  mkCtrl (phase c) v (iteration c) (copy_time c) (verify_err c).

Definition set_iteration (c : shm_control_t) (v : Z) : shm_control_t :=
  mkCtrl (phase c) (data_size c) v (copy_time c) (verify_err c).

Definition set_copy_time (c : shm_control_t) (v : double) : shm_control_t :=
  mkCtrl (phase c) (data_size c) (iteration c) v (verify_err c).

Definition set_verify_err (c : shm_control_t) (v : Z) : shm_control_t :=
  mkCtrl (phase c) (data_size c) (iteration c) (copy_time c) v.

(** One step of the parent; [None] when it has no step to take (it has
    finished, it is blocked in [wait], or the step faults). *)
Definition parent_step (s : state) : option state :=
  let p := par s in
  let c := ctrl s in
  let acc k f := mkAccess Parent k f :: accesses s in
  match p_pc p with
  | P_start =>
      match (emit (Text Stdout "--- POSIX shm memcpy benchmark ---");;
             emit (Text Stdout "  (shared memory -> local buffer of another process)"))
              (env s) with
      | Some (_, w) =>
          Some (mkState c (shm_ptr s) (set_pc p P_size_loop) (chi s) w
                        (accesses s))
      | None => None
      end
  | P_size_loop =>
      if si p <? NUM_TEST_SIZES then
        match array_get TEST_SIZES (si p) with
        | Some size =>
            if size >? max_size
            then Some (mkState c (shm_ptr s) (set_pc p P_term_size) (chi s)
                               (env s) (accesses s))
            else Some (mkState c (shm_ptr s)
                               (mkParent P_repeat_loop (si p) 0 size
                                         Importer.fresh_times)
                               (chi s) (env s) (accesses s))
        | None => None
        end
      else Some (mkState c (shm_ptr s) (set_pc p P_term_size) (chi s)
                         (env s) (accesses s))
  | P_repeat_loop =>
      Some (mkState c (shm_ptr s)
                    (set_pc p (if r p <? REPEAT_COUNT then P_fill
                               else P_summary))
                    (chi s) (env s) (accesses s))
  | P_fill =>
      match fill_pattern (shm_ptr s) (p_size p) with
      | Some shm => Some (mkState c shm (set_pc p P_set_size) (chi s)
                                  (env s) (accesses s))
      | None => None
      end
  | P_set_size =>
      Some (mkState (set_data_size c (p_size p)) (shm_ptr s)
                    (set_pc p P_set_iteration) (chi s) (env s)
                    (acc Write F_data_size))
  | P_set_iteration =>
      Some (mkState (set_iteration c (r p)) (shm_ptr s)
                    (set_pc p P_post) (chi s) (env s)
                    (acc Write F_iteration))
  | P_post =>
      Some (mkState (set_phase c 1) (shm_ptr s)
                    (set_pc p P_wait) (chi s) (env s)
                    (acc Write F_phase))
  | P_wait =>
      Some (mkState c (shm_ptr s)
                    (set_pc p (if negb (phase c =? 2) then P_wait  (* usleep *)
                               else P_read_time))
                    (chi s) (env s) (acc Read F_phase))
  | P_read_time =>
      match (times <- lift (array_set (times p) (r p) (copy_time c));;
             t <- lift (array_get times (r p));;
             print_result "SHM-cpy  " (p_size p) t (r p + 1);;
             ret times) (env s) with
      | Some (times, w) =>
          Some (mkState c (shm_ptr s)
                        (mkParent P_report (si p) (r p) (p_size p) times)
                        (chi s) w (acc Read F_copy_time))
      | None => None
      end
  | P_report =>
      if r p =? 0 then
        match (if negb (verify_err c =? 0)
               then emit (Mismatch (wrap64 (verify_err c - 1)))
               else emit VerifyOk) (env s) with
        | Some (_, w) =>
            Some (mkState c (shm_ptr s) (set_pc p P_reset) (chi s) w
                          (acc Read F_verify_err))
        | None => None
        end
      else Some (mkState c (shm_ptr s) (set_pc p P_reset) (chi s) (env s)
                         (accesses s))
  | P_reset =>
      Some (mkState (set_phase c 0) (shm_ptr s)
                    (mkParent P_repeat_loop (si p) (r p + 1) (p_size p)
                              (times p))
                    (chi s) (env s) (acc Write F_phase))
  | P_summary =>
      match (print_summary "SHM-cpy  " (p_size p) (times p) REPEAT_COUNT;;
             emit (Text Stdout "")) (env s) with
      | Some (_, w) =>
          Some (mkState c (shm_ptr s)
                        (mkParent P_size_loop (wrap64 (si p + 1)) (r p)
                                  (p_size p) (times p))
                        (chi s) w (accesses s))
      | None => None
      end
  | P_term_size =>
      Some (mkState (set_data_size c 0) (shm_ptr s)
                    (set_pc p P_term_post) (chi s) (env s)
                    (acc Write F_data_size))
  | P_term_post =>
      Some (mkState (set_phase c 1) (shm_ptr s)
                    (set_pc p P_join) (chi s) (env s)
                    (acc Write F_phase))
  | P_join =>
      (* [wait(NULL)] returns once the child has exited *)
      match c_pc (chi s) with
      | C_exited _ =>
          match emit (Text Stdout "benchmark complete") (env s) with
          | Some (_, w) =>
              Some (mkState c (shm_ptr s) (set_pc p P_done) (chi s) w
                            (accesses s))
          | None => None
          end
      | _ => None
      end
  | P_done => None
  end.

(** One step of the child; [None] once it has exited (or on a fault). *)
Definition child_step (s : state) : option state :=
  let ch := chi s in
  let c := ctrl s in
  let acc k f := mkAccess Child k f :: accesses s in
  match c_pc ch with
  | C_alloc =>
      match alloc_aligned max_size (env s) with
      | Some (Some buf, w) =>
          match memset buf 0 max_size with
          | Some buf =>
              Some (mkState c (shm_ptr s) (par s)
                            (mkChild C_poll (Some buf) (c_size ch)
                                     (elapsed ch))
                            w (accesses s))
          | None => None
          end
      | Some (None, w) =>
          Some (mkState c (shm_ptr s) (par s) (set_cpc ch (C_exited 1)) w
                        (accesses s))
      | None => None
      end
  | C_poll =>
      Some (mkState c (shm_ptr s) (par s)
                    (set_cpc ch (if negb (phase c =? 1) then C_poll (* usleep *)
                                 else C_read_size))
                    (env s) (acc Read F_phase))
  | C_read_size =>
      let size := data_size c in
      Some (mkState c (shm_ptr s) (par s)
                    (mkChild (if size =? 0 then C_exited 0   (* break *)
                              else C_copy)
                             (local_buf ch) size (elapsed ch))
                    (env s) (acc Read F_data_size))
  | C_copy =>
      match local_buf ch with
      | Some buf =>
          match (buf <- lift (memset buf 0 (c_size ch));;
                 t0 <- get_time_sec;;
                 buf <- lift (memcpy buf (shm_ptr s) (c_size ch));;
                 t1 <- get_time_sec;;
                 ret (buf, PrimFloat.sub t1 t0)) (env s) with
          | Some ((buf, dt), w) =>
              Some (mkState c (shm_ptr s) (par s)
                            (mkChild C_write_time (Some buf) (c_size ch) dt)
                            w (accesses s))
          | None => None
          end
      | None => None
      end
  | C_write_time =>
      Some (mkState (set_copy_time c (elapsed ch)) (shm_ptr s) (par s)
                    (set_cpc ch C_verify) (env s) (acc Write F_copy_time))
  | C_verify =>
      match local_buf ch with
      | Some buf =>
          match call_verify_pattern buf (c_size ch) (env s) with
          | Some (err, w) =>
              Some (mkState (set_verify_err c err) (shm_ptr s) (par s)
                            (set_cpc ch C_post) w (acc Write F_verify_err))
          | None => None
          end
      | None => None
      end
  | C_post =>
      Some (mkState (set_phase c 2) (shm_ptr s) (par s)
                    (set_cpc ch C_poll) (env s) (acc Write F_phase))
  | C_exited _ => None
  end.

(** The interleaving semantics: at each instant one of the two processes
    takes a step. *)
Definition step (a : actor) (s : state) : option state :=
  match a with
  | Parent => parent_step s
  | Child => child_step s
  end.

(** The run under a schedule; [None] when a scheduled process has no step. *)
Fixpoint run (schedule : list actor) (s : state) : option state :=
  match schedule with
  | [] => Some s
  | a :: rest =>
      match step a s with
      | Some s' => run rest s'
      | None => None
      end
  end.

(** The states that the two processes can reach from [fork]. *)
Inductive reachable (w : world) : state -> Prop :=
  | reach_init : reachable w (init w)
  | reach_step : forall a s s',
      reachable w s -> step a s = Some s' -> reachable w s'.

(** ** Ownership of the phase flag *)

(** The accesses of process [a] since its own last write to [phase],
    newest first. *)
Fixpoint since_own_post (a : actor) (log : list access) : list access :=
  match log with
  | [] => []
  | x :: rest =>
      match who x, a with
      | Parent, Parent | Child, Child =>
          match kind x, what x with
          | Write, F_phase => []
          | _, _ => x :: since_own_post a rest
          end
      | _, _ => since_own_post a rest
      end
  end.

Definition access_eqb (x y : access) : bool :=
  match who x, who y with
  | Parent, Parent | Child, Child =>
      match kind x, kind y with
      | Read, Read | Write, Write =>
          match what x, what y with
          | F_phase, F_phase | F_data_size, F_data_size
          | F_iteration, F_iteration | F_copy_time, F_copy_time
          | F_verify_err, F_verify_err => true
          | _, _ => false
          end
      | _, _ => false
      end
  | _, _ => false
  end.

(** Process [a] has read ([k = Read]) or written ([k = Write]) field [f]
    since its last write to [phase]. *)
Definition has_accessed (a : actor) (k : access_kind) (f : field)
    (log : list access) : bool :=
  existsb (access_eqb (mkAccess a k f)) (since_own_post a log).

(** The accesses of process [a], newest first. *)
Definition accesses_of (a : actor) (log : list access) : list access :=
  filter (fun x => match who x, a with
                   | Parent, Parent | Child, Child => true
                   | _, _ => false
                   end) log.



End ShmBench.

(** ** Observations on the output *)

Module Trace.
Import Common.

(** What the properties observe of an event: a result row, a call of the
    verifier, a printed verification verdict, a summary call with its
    [count] and the length of its array. *)
Inductive mark : Type :=
  | Row (method : string) (size iteration : Z)
  | Ver (size : Z)
  | Verdict
  | Sum (method : string) (size count : Z) (len : nat).

Definition mark_of (e : event) : list mark :=
  match e with
  | Text _ _ => []
  | ResultRow m size it _ _ _ => [Row m size it]
  | SummaryRow m size times count _ _ _ _ =>
      [Sum m size count (List.length times)]
  | Verify size _ => [Ver size]
  | VerifyOk => [Verdict]
  | Mismatch _ => [Verdict]
  end.

Definition timeline (evs : list event) : list mark := flat_map mark_of evs.

(** The entries of a table that a driver loop runs for a given capacity: it
    leaves the table at the first entry above the capacity. *)
Fixpoint sizes_run (sizes : list Z) (max_size : Z) : list Z :=
  match sizes with
  | [] => []
  | size :: rest =>
      if size >? max_size then [] else size :: sizes_run rest max_size
  end.

(** The result rows of repeats [r + 1], ..., [r + n] of one size. *)
Fixpoint rows (method : string) (n : nat) (size r : Z) : list mark :=
  match n with
  | O => []
  | S n' => Row method size (r + 1) :: rows method n' size (r + 1)
  end.

(** The marks of repeats [r + 1], ..., [r + n] of one size in
    [bench_xpmem_memcpy]: the verifier runs, and its verdict is printed,
    after the first result row only. *)
Fixpoint memcpy_repeats_marks (n : nat) (size r : Z) : list mark :=
  match n with
  | O => []
  | S n' =>
      Row "xpmem-cpy" size (r + 1)
        :: (if r =? 0 then [Ver size; Verdict] else [])
        ++ memcpy_repeats_marks n' size (r + 1)
  end.

Definition memcpy_cycle (size : Z) : list mark :=
  memcpy_repeats_marks 5 size 0 ++ [Sum "xpmem-cpy" size REPEAT_COUNT 5].

(** The marks of one size in [bench_xpmem_direct] and
    [bench_local_memcpy]. *)
Definition plain_cycle (method : string) (size : Z) : list mark :=
  rows method 5 size 0 ++ [Sum method size REPEAT_COUNT 5].

(** The marks of repeats [r + 1], ..., [r + n] of one size in shm_bench:
    the child verifies in every repeat, the parent prints a verdict in the
    first. *)
Fixpoint shm_repeats (n : nat) (size r : Z) : list mark :=
  match n with
  | O => []
  | S n' =>
      Ver size :: Row "SHM-cpy  " size (r + 1)
        :: (if r =? 0 then [Verdict] else [])
        ++ shm_repeats n' size (r + 1)
  end.

Definition shm_cycle (size : Z) : list mark :=
  shm_repeats 5 size 0 ++ [Sum "SHM-cpy  " size REPEAT_COUNT 5].



(** The [(count, length of the array)] of the summary calls, in order. *)
Definition summary_calls (ms : list mark) : list (Z * nat) :=
  flat_map (fun m => match m with
                     | Sum _ _ count len => [(count, len)]
                     | _ => []
                     end) ms.


End Trace.

(** ** Invariants of the shared-control-record protocol *)

Module Protocol.
Import Common ShmBench.

(** The child has not seen a request: it is still allocating, it is
    polling, or its allocation failed. *)
Definition idle_child (c : child_pc) : Prop :=
  c = C_alloc \/ c = C_poll \/ c = C_exited 1.

(** The child is between reading a request and posting its response. *)
Definition serving_child (c : child_pc) : Prop :=
  c = C_copy \/ c = C_write_time \/ c = C_verify \/ c = C_post.

(** How the two program counters and the control record go together. *)
Definition control_inv (s : state) : Prop :=
  let c := ctrl s in
  let cpc := c_pc (chi s) in
  let p := par s in
  match p_pc p with
  | P_start | P_size_loop | P_repeat_loop | P_fill | P_set_size
  | P_summary | P_term_size =>
      phase c = 0 /\ idle_child cpc
  | P_set_iteration =>
      phase c = 0 /\ idle_child cpc /\ data_size c = p_size p
  | P_post =>
      phase c = 0 /\ idle_child cpc /\
      data_size c = p_size p /\ iteration c = r p
  | P_term_post =>
      phase c = 0 /\ idle_child cpc /\ data_size c = 0
  | P_wait =>
      data_size c = p_size p /\ iteration c = r p /\
      ((phase c = 1 /\
        (idle_child cpc \/ cpc = C_read_size \/
         (serving_child cpc /\ c_size (chi s) = p_size p)))
       \/ (phase c = 2 /\ cpc = C_poll))
  | P_read_time | P_report | P_reset =>
      phase c = 2 /\ cpc = C_poll /\
      data_size c = p_size p /\ iteration c = r p
  | P_join =>
      phase c = 1 /\ data_size c = 0 /\
      (idle_child cpc \/ cpc = C_read_size \/ cpc = C_exited 0)
  | P_done =>
      phase c = 1 /\ data_size c = 0 /\
      (cpc = C_exited 0 \/ cpc = C_exited 1)
  end.

(** The parent's locals inside the size loop. *)
Definition in_size_loop (p : parent) : Prop :=
  array_get TEST_SIZES (si p) = Some (p_size p) /\
  List.length (times p) = 5%nat.

Definition loop_inv (s : state) : Prop :=
  let p := par s in
  0 <= si p <= NUM_TEST_SIZES /\
  match p_pc p with
  | P_repeat_loop => in_size_loop p /\ 0 <= r p <= 5
  | P_fill | P_set_size | P_set_iteration | P_post | P_wait
  | P_read_time | P_report | P_reset => in_size_loop p /\ 0 <= r p < 5
  | P_summary => in_size_loop p /\ r p = 5
  | P_term_size | P_term_post | P_join | P_done =>
      si p = NUM_TEST_SIZES
  | P_start => si p = 0
  | P_size_loop => True
  end.

(** Both regions keep the capacity they were created with. *)
Definition memory_inv (s : state) : Prop :=
  capacity (shm_ptr s) = max_size /\
  match local_buf (chi s) with
  | Some b => capacity b = max_size
  | None => c_pc (chi s) = C_alloc \/ c_pc (chi s) = C_exited 1
  end.

Definition handshake_inv (s : state) : Prop :=
  control_inv s /\ loop_inv s /\ memory_inv s.

(** Once a response has been produced, the child has its buffer. *)
Definition alive_inv (s : state) : Prop :=
  (0 < si (par s) \/ 0 < r (par s) \/ phase (ctrl s) = 2) ->
  c_pc (chi s) <> C_alloc /\ c_pc (chi s) <> C_exited 1.

(** What each process has read and written since its last write to
    [phase], by program point. *)
Definition parent_accesses_inv (s : state) : Prop :=
  let wrote f := has_accessed Parent Write f (accesses s) in
  let read f := has_accessed Parent Read f (accesses s) in
  match p_pc (par s) with
  | P_start | P_size_loop | P_repeat_loop | P_fill | P_set_size
  | P_summary | P_term_size =>
      wrote F_data_size = false /\ wrote F_iteration = false
  | P_set_iteration =>
      wrote F_data_size = true /\ wrote F_iteration = false
  | P_post =>
      wrote F_data_size = true /\ wrote F_iteration = true
  | P_term_post =>
      wrote F_data_size = true /\ wrote F_iteration = false
  | P_wait | P_read_time =>
      read F_copy_time = false /\ read F_verify_err = false
  | P_report =>
      read F_copy_time = true /\ read F_verify_err = false
  | P_reset =>
      read F_copy_time = true /\ read F_verify_err = (r (par s) =? 0)
  | P_join | P_done => True
  end.

Definition child_accesses_inv (s : state) : Prop :=
  let wrote f := has_accessed Child Write f (accesses s) in
  match c_pc (chi s) with
  | C_alloc | C_poll | C_read_size | C_copy | C_write_time =>
      wrote F_copy_time = false /\ wrote F_verify_err = false
  | C_verify =>
      wrote F_copy_time = true /\ wrote F_verify_err = false
  | C_post =>
      wrote F_copy_time = true /\ wrote F_verify_err = true
  | C_exited _ => True
  end.

Definition accesses_inv (s : state) : Prop :=
  parent_accesses_inv s /\ child_accesses_inv s.

(** The child has called the verifier in the current repeat. *)
Definition child_verified (s : state) : bool :=
  match c_pc (chi s) with
  | C_post => true
  | C_poll => phase (ctrl s) =? 2
  | _ => false
  end.

(** The marks of the size in progress. *)
Definition cycle_progress (s : state) : list Trace.mark :=
  let p := par s in
  let size := p_size p in
  let earlier := Trace.shm_repeats (Z.to_nat (r p)) size 0 in
  match p_pc p with
  | P_start | P_size_loop | P_term_size | P_term_post | P_join | P_done =>
      []
  | P_repeat_loop | P_fill | P_set_size | P_set_iteration | P_post
  | P_summary =>
      earlier
  | P_wait =>
      earlier ++ (if child_verified s then [Trace.Ver size] else [])
  | P_read_time =>
      earlier ++ [Trace.Ver size]
  | P_report =>
      earlier ++ [Trace.Ver size; Trace.Row "SHM-cpy  " size (r p + 1)]
  | P_reset =>
      earlier ++ [Trace.Ver size; Trace.Row "SHM-cpy  " size (r p + 1)]
        ++ (if r p =? 0 then [Trace.Verdict] else [])
  end.

(** The output so far: the sizes that are complete, then the size in
    progress. *)
Definition timeline_inv (w0 : world) (s : state) : Prop :=
  Trace.timeline (output (env s)) =
    Trace.timeline (output w0)
    ++ flat_map Trace.shm_cycle (firstn (Z.to_nat (si (par s))) TEST_SIZES)
    ++ cycle_progress s.



(** ** The three transitions of [phase] *)


(** ** A schedule that never lets a process poll in vain *)

Definition scheduled (s : state) : actor :=
  match c_pc (chi s) with
  | C_alloc => Child
  | C_exited _ => Parent
  | _ =>
      match p_pc (par s) with
      | P_wait => if phase (ctrl s) =? 2 then Parent else Child
      | P_join => Child
      | _ => Parent
      end
  end.

(** How far the child is in the current repeat. *)
Definition child_rank (s : state) : Z :=
  match c_pc (chi s) with
  | C_alloc | C_exited _ => 0
  | C_poll => if phase (ctrl s) =? 2 then 6 else 0
  | C_read_size => 1
  | C_copy => 2
  | C_write_time => 3
  | C_verify => 4
  | C_post => 5
  end.

(** The number of steps taken so far under [scheduled]: 15 per repeat, 78
    per size. *)
Definition steps_done (s : state) : Z :=
  let p := par s in
  let base := 78 * si p + 15 * r p in
  (match c_pc (chi s) with C_alloc => 0 | _ => 1 end)
  + match p_pc p with
    | P_start => 0
    | P_size_loop => 1 + 78 * si p
    | P_repeat_loop => 2 + base
    | P_fill => 3 + base
    | P_set_size => 4 + base
    | P_set_iteration => 5 + base
    | P_post => 6 + base
    | P_wait => 7 + base + child_rank s
    | P_read_time => 14 + base
    | P_report => 15 + base
    | P_reset => 16 + base
    | P_summary => 3 + base
    | P_term_size => 2 + 78 * si p
    | P_term_post => 3 + 78 * si p
    | P_join =>
        4 + 78 * si p
        + match c_pc (chi s) with
          | C_read_size => 1
          | C_exited _ => 2
          | _ => 0
          end
    | P_done => 7 + 78 * si p
    end.

(** The steps of a complete run. *)
Definition TOTAL_STEPS : Z := 1 + 7 + 78 * NUM_TEST_SIZES.

(** The child's allocation has succeeded or will succeed. *)
Definition lively (s : state) : Prop :=
  c_pc (chi s) <> C_exited 1 /\
  (c_pc (chi s) = C_alloc -> heap (env s) (allocs (env s)) <> None).

End Protocol.

(** ** Concrete inputs used by the examples *)

Module Samples.
Import Common.

(** A four-byte region whose byte at offset 2 is wrong. *)
Definition sample_bad_buffer : buffer :=
  mkBuffer 4 (fun i => if i =? 2 then 9 else i).



(** A region of 13 bytes, all 255. *)
Definition sample_buffer13 : buffer := mkBuffer 13 (fun _ => 255).

(** A descriptor file that lacks the process id: [fscanf] converts two
    fields and leaves [exporter_pid] alone. *)
Definition truncated_descriptor : Importer.descriptor :=
  Importer.mkDescriptor 2 4660 4096 0.

Definition truncated_env : Importer.env :=
  Importer.mkEnv 3 (Some truncated_descriptor) 1 (Some (fun i => i mod 256)).

(** A complete descriptor for a region of 4096 bytes that carries the
    pattern. *)
Definition small_env : Importer.env :=
  Importer.mkEnv 0 (Some (Importer.mkDescriptor 3 4660 4096 77)) 1
                 (Some (fun i => i mod 256)).

(** A world whose clock advances by one microsecond per reading and whose
    allocator always succeeds. *)
Definition steady_world : world :=
  mkWorld (fun n => mkTimespec 0 (1000 * Z.of_nat n)) 0
          (fun _ => Some (fun _ => 0)) 0 [].









(** Seven microseconds, as the nearest double. *)
Definition seven_us : double := 0x1.d5c31593e5fb7p-18%float.

(** Five repeats that each took seven microseconds. *)
Definition five_sevens : list double := List.repeat seven_us 5.

End Samples.

(* ================================================================== *)
(** * Part II.  Properties                                             *)
(* ================================================================== *)

Import Common Trace Protocol Samples.

(** ** The pattern generator and the verifier *)

Lemma wrap64_small (n : Z) : 0 <= n < 2 ^ 64 -> wrap64 n = n.
Proof. intros Hn. unfold wrap64. apply Z.mod_small. exact Hn. Qed.

Lemma pattern_byte (i : Z) : 0 <= i -> uint8 (Z.land i 255) = i mod 256.
Proof.
  intros Hi. unfold uint8.
  change 255 with (Z.ones 8).
  rewrite Z.land_ones by lia.
  change (2 ^ 8) with 256.
  apply Z.mod_mod. lia.
Qed.

Lemma load_in_bounds (b : buffer) (i : Z) :
  0 <= i < capacity b -> load b i = Some (byte_at b i).
Proof.
  intros Hi. unfold load, in_bounds.
  replace (0 <=? i) with true by (symmetry; apply Z.leb_le; lia).
  replace (i <? capacity b) with true by (symmetry; apply Z.ltb_lt; lia).
  reflexivity.
Qed.

Lemma store_in_bounds (b : buffer) (i v : Z) :
  0 <= i < capacity b ->
  store b i v =
    Some (mkBuffer (capacity b) (fun j => if j =? i then v else byte_at b j)).
Proof.
  intros Hi. unfold store, in_bounds.
  replace (0 <=? i) with true by (symmetry; apply Z.leb_le; lia).
  replace (i <? capacity b) with true by (symmetry; apply Z.ltb_lt; lia).
  reflexivity.
Qed.

(** The generator's loop writes the pattern on [[i, i + n)] and leaves the
    rest of the region alone. *)
Lemma fill_loop_spec (n : nat) :
  forall (p : buffer) (i : Z),
    0 <= i -> i + Z.of_nat n <= capacity p -> i + Z.of_nat n < 2 ^ 64 ->
    exists p',
      fill_loop n p i = Some p' /\
      capacity p' = capacity p /\
      (forall j, i <= j < i + Z.of_nat n -> byte_at p' j = j mod 256) /\
      (forall j, ~ (i <= j < i + Z.of_nat n) -> byte_at p' j = byte_at p j).
Proof.
  induction n as [|n IH]; intros p i Hi Hcap Hmax.
  - exists p. simpl. repeat split; intros; try reflexivity; lia.
  - cbn [fill_loop].
    rewrite store_in_bounds by lia.
    rewrite wrap64_small by lia.
    destruct (IH (mkBuffer (capacity p)
                    (fun j => if j =? i then uint8 (Z.land i 255)
                              else byte_at p j)) (i + 1))
      as (p' & Hrun & Hc & Hin & Hout); cbn [capacity]; try lia.
    exists p'. split; [exact Hrun|]. split; [exact Hc|]. split.
    + intros j Hj. destruct (Z.eq_dec j i) as [->|Hne].
      * rewrite Hout by lia. cbn [byte_at]. rewrite Z.eqb_refl.
        apply pattern_byte; lia.
      * apply Hin. lia.
    + intros j Hj. rewrite Hout by lia. cbn [byte_at].
      destruct (Z.eqb_spec j i); [lia | reflexivity].
Qed.

Lemma fill_pattern_spec (buf : buffer) (size : Z) :
  is_size_t size -> size <= capacity buf ->
  exists buf',
    fill_pattern buf size = Some buf' /\
    capacity buf' = capacity buf /\
    (forall j, 0 <= j < size -> byte_at buf' j = j mod 256) /\
    (forall j, ~ (0 <= j < size) -> byte_at buf' j = byte_at buf j).
Proof.
  unfold is_size_t, SIZE_MAX. intros Hs Hcap.
  destruct (fill_loop_spec (Z.to_nat size) buf 0) as (p' & H1 & H2 & H3 & H4);
    try lia.
  exists p'. rewrite Z2Nat.id in * by lia. cbn [Z.add] in *.
  repeat split; assumption.
Qed.

(** The verifier's loop on a region that carries the pattern on
    [[i, i + n)]. *)
Lemma verify_loop_match (n : nat) :
  forall (p : buffer) (i : Z),
    0 <= i -> i + Z.of_nat n <= capacity p -> i + Z.of_nat n < 2 ^ 64 ->
    (forall j, i <= j < i + Z.of_nat n -> byte_at p j = j mod 256) ->
    verify_loop n p i = Some 0.
Proof.
  induction n as [|n IH]; intros p i Hi Hcap Hmax Hpat; [reflexivity|].
  cbn [verify_loop].
  rewrite load_in_bounds by lia.
  rewrite pattern_byte by lia.
  rewrite Hpat by lia. rewrite Z.eqb_refl. cbn [negb].
  rewrite wrap64_small by lia.
  apply IH; try lia. intros j Hj. apply Hpat. lia.
Qed.

(** The verifier's loop stops at the first offset [k] that differs. *)
Lemma verify_loop_mismatch (n : nat) :
  forall (p : buffer) (i k : Z),
    0 <= i -> i + Z.of_nat n <= capacity p -> i + Z.of_nat n < 2 ^ 64 ->
    i <= k < i + Z.of_nat n ->
    (forall j, i <= j < k -> byte_at p j = j mod 256) ->
    byte_at p k <> k mod 256 ->
    verify_loop n p i = Some (k + 1).
Proof.
  induction n as [|n IH]; intros p i k Hi Hcap Hmax Hk Hpat Hbad; [lia|].
  cbn [verify_loop].
  rewrite load_in_bounds by lia.
  rewrite pattern_byte by lia.
  destruct (Z.eqb_spec (byte_at p i) (i mod 256)) as [Heq|Hne]; cbn [negb].
  - assert (k <> i) by (intros ->; contradiction).
    rewrite wrap64_small by lia.
    apply IH; try lia. intros j Hj. apply Hpat. lia.
  - assert (k = i) as ->.
    { destruct (Z.eq_dec k i) as [E|E]; [exact E|].
      exfalso. apply Hne. apply Hpat. lia. }
    rewrite wrap64_small by lia. reflexivity.
Qed.

Lemma verify_pattern_match (b : buffer) (n : Z) :
  is_size_t n -> n <= capacity b ->
  (forall i, 0 <= i < n -> byte_at b i = i mod 256) ->
  verify_pattern b n = Some 0.
Proof.
  unfold is_size_t, SIZE_MAX, verify_pattern. intros Hn Hcap Hpat.
  apply verify_loop_match; rewrite ?Z2Nat.id by lia; try lia.
  intros j Hj. apply Hpat. lia.
Qed.

(** C3: [verify_pattern(b, n)] returns 0 when [b[i] = i mod 256] for every
    [i < n]; otherwise it returns [k + 1], where [k] is the smallest offset
    whose byte differs from [k mod 256]. *)
Theorem verify_pattern_first_mismatch (b : buffer) (n : Z) :
  is_size_t n -> n <= capacity b ->
  ((forall i, 0 <= i < n -> byte_at b i = i mod 256) ->
   verify_pattern b n = Some 0) /\
  (forall k,
     0 <= k < n ->
     byte_at b k <> k mod 256 ->
     (forall j, 0 <= j < k -> byte_at b j = j mod 256) ->
     verify_pattern b n = Some (k + 1)).
Proof.
  intros Hn Hcap. split.
  - apply verify_pattern_match; assumption.
  - unfold is_size_t, SIZE_MAX, verify_pattern in *. intros k Hk Hbad Hpat.
    apply verify_loop_mismatch; rewrite ?Z2Nat.id by lia; try lia; assumption.
Qed.

Lemma verify_pattern_first_mismatch_witness :
  is_size_t 4 /\ 4 <= capacity sample_bad_buffer /\
  verify_pattern sample_bad_buffer 4 = Some 3.
Proof.
  assert (H4 : is_size_t 4) by (unfold is_size_t, SIZE_MAX; lia).
  assert (Hc : 4 <= capacity sample_bad_buffer) by (cbn; lia).
  split; [exact H4|]. split; [exact Hc|].
  apply (proj2 (verify_pattern_first_mismatch sample_bad_buffer 4 H4 Hc) 2).
  - lia.
  - cbn. lia.
  - intros j Hj. assert (j = 0 \/ j = 1) as [-> | ->] by lia; reflexivity.
Defined.

(** C2: for every length [s] (zero and non-multiples of 8 included), filling
    a buffer of at least [s] bytes with [fill_pattern] and then calling
    [verify_pattern] on it with the same length returns 0. *)
Theorem fill_then_verify (buf : buffer) (s : Z) :
  is_size_t s -> s <= capacity buf ->
  exists buf',
    fill_pattern buf s = Some buf' /\ verify_pattern buf' s = Some 0.
Proof.
  intros Hs Hcap.
  destruct (fill_pattern_spec buf s Hs Hcap) as (buf' & Hfill & Hc & Hin & _).
  exists buf'. split; [exact Hfill|].
  apply verify_pattern_match; [exact Hs | lia | exact Hin].
Qed.

Lemma fill_then_verify_witness :
  is_size_t 13 /\ 13 <= capacity sample_buffer13 /\
  exists buf',
    fill_pattern sample_buffer13 13 = Some buf' /\
    verify_pattern buf' 13 = Some 0.
Proof.
  assert (H13 : is_size_t 13) by (unfold is_size_t, SIZE_MAX; lia).
  assert (Hc : 13 <= capacity sample_buffer13) by (cbn; lia).
  split; [exact H13|]. split; [exact Hc|].
  exact (fill_then_verify sample_buffer13 13 H13 Hc).
Defined.

(** ** The summary row *)

Lemma array_get_nth {A : Type} (a : list A) (i : Z) :
  0 <= i -> array_get a i = nth_error a (Z.to_nat i).
Proof.
  intros Hi. unfold array_get.
  replace (0 <=? i) with true by (symmetry; apply Z.leb_le; lia).
  reflexivity.
Qed.

Section SummaryFacts.
Context {D : Type} {A : Arith D}.

(** The loop visits the elements [times[i]], ..., [times[i + n - 1]] in
    order; it reads inside the array exactly when they all exist. *)
Lemma summary_loop_fold (n : nat) :
  forall (times : list D) (i : Z) (acc : D * D * D),
    0 <= i -> (Z.to_nat i + n <= List.length times)%nat ->
    summary_loop n times i acc =
      Some (fold_left summary_step
                      (firstn n (skipn (Z.to_nat i) times)) acc).
Proof.
  induction n as [|n IH]; intros times i acc Hi Hlen; [reflexivity|].
  cbn [summary_loop]. rewrite array_get_nth by lia.
  destruct (nth_error times (Z.to_nat i)) as [t|] eqn:Hnth.
  - rewrite IH by (try lia; rewrite Z2Nat.inj_add by lia; simpl; lia).
    f_equal.
    replace (Z.to_nat (i + 1)) with (S (Z.to_nat i))
      by (rewrite Z2Nat.inj_add by lia; simpl; lia).
    clear IH Hlen. revert times Hnth.
    generalize (Z.to_nat i) as k.
    induction k as [|k IHk]; intros [|x times] Hnth; try discriminate.
    + injection Hnth as ->. reflexivity.
    + cbn [skipn]. cbn [nth_error] in Hnth. apply IHk. exact Hnth.
  - apply nth_error_None in Hnth. lia.
Qed.

Lemma summarize_fold (size : Z) (times : list D) (count : Z) :
  1 <= count <= Z.of_nat (List.length times) ->
  exists t0 rest mn mx sm,
    times = t0 :: rest /\
    fold_left summary_step (firstn (Z.to_nat count) times) (t0, t0, of_Z 0)
      = (mn, mx, sm) /\
    summarize size times count =
      Some (mkStats (div sm (of_Z count))
                    (div (div (of_Z size) (div sm (of_Z count))) GIB)
                    mn mx).
Proof.
  intros Hc. destruct times as [|t0 rest]; [cbn in Hc; lia|].
  unfold summarize. rewrite array_get_nth by lia. cbn [Z.to_nat nth_error].
  rewrite summary_loop_fold by (cbn [Z.to_nat]; lia).
  cbn [Z.to_nat skipn].
  destruct (fold_left summary_step (firstn (Z.to_nat count) (t0 :: rest))
                      (t0, t0, of_Z 0)) as [[mn mx] sm] eqn:Hfold.
  exists t0, rest, mn, mx, sm.
  split; [reflexivity|]. split; [exact Hfold|]. reflexivity.
Qed.

(** The sum is accumulated from left to right. *)
Lemma fold_sum (l : list D) :
  forall mn mx sm,
    snd (fold_left summary_step l (mn, mx, sm)) = fold_left add l sm.
Proof.
  induction l as [|t l IH]; intros mn mx sm; [reflexivity|].
  cbn [fold_left summary_step]. apply IH.
Qed.

(** The running minimum and maximum are the start value or an element. *)
Lemma fold_min_in (l : list D) :
  forall mn mx sm,
    In (fst (fst (fold_left summary_step l (mn, mx, sm)))) (mn :: l).
Proof.
  induction l as [|t l IH]; intros mn mx sm; [left; reflexivity|].
  cbn [fold_left summary_step].
  specialize (IH (if ltb t mn then t else mn)
                 (if ltb mx t then t else mx) (add sm t)).
  destruct IH as [IH|IH].
  - rewrite <- IH. destruct (ltb t mn); [right; left|left]; reflexivity.
  - right. right. exact IH.
Qed.

Lemma fold_max_in (l : list D) :
  forall mn mx sm,
    In (snd (fst (fold_left summary_step l (mn, mx, sm)))) (mx :: l).
Proof.
  induction l as [|t l IH]; intros mn mx sm; [left; reflexivity|].
  cbn [fold_left summary_step].
  specialize (IH (if ltb t mn then t else mn)
                 (if ltb mx t then t else mx) (add sm t)).
  destruct IH as [IH|IH].
  - rewrite <- IH. destruct (ltb mx t); [right; left|left]; reflexivity.
  - right. right. exact IH.
Qed.

Hypothesis ltb_trans :
  forall x y z : D, ltb x y = true -> ltb y z = true -> ltb x z = true.
Hypothesis ltb_irrefl : forall x : D, ltb x x = false.

(** Nothing that was not below the start value is below the result. *)
Lemma fold_min_lower (l : list D) :
  forall mn mx sm t,
    (ltb t mn = false \/ In t l) ->
    ltb t (fst (fst (fold_left summary_step l (mn, mx, sm)))) = false.
Proof.
  induction l as [|x l IH]; intros mn mx sm t Ht.
  - destruct Ht as [Ht|[]]. exact Ht.
  - cbn [fold_left summary_step]. apply IH.
    destruct Ht as [Ht|[<-|Ht]].
    + left. destruct (ltb x mn) eqn:Hx; [|exact Ht].
      destruct (ltb t x) eqn:Htx; [|reflexivity].
      rewrite (ltb_trans _ _ _ Htx Hx) in Ht. discriminate.
    + left. destruct (ltb x mn) eqn:Hx; [apply ltb_irrefl | exact Hx].
    + right. exact Ht.
Qed.

Lemma fold_max_upper (l : list D) :
  forall mn mx sm t,
    (ltb mx t = false \/ In t l) ->
    ltb (snd (fst (fold_left summary_step l (mn, mx, sm)))) t = false.
Proof.
  induction l as [|x l IH]; intros mn mx sm t Ht.
  - destruct Ht as [Ht|[]]. exact Ht.
  - cbn [fold_left summary_step]. apply IH.
    destruct Ht as [Ht|[<-|Ht]].
    + left. destruct (ltb mx x) eqn:Hx; [|exact Ht].
      destruct (ltb x t) eqn:Htx; [|reflexivity].
      rewrite (ltb_trans _ _ _ Hx Htx) in Ht. discriminate.
    + left. destruct (ltb mx x) eqn:Hx; [apply ltb_irrefl | exact Hx].
    + right. exact Ht.
Qed.

(** What [print_summary] reports, for any arithmetic whose [<] is a strict
    order: the minimum and the maximum are samples that bound every sample,
    the mean is the left-to-right sum divided by [count], and the bandwidth
    is computed from the mean. *)
Lemma summarize_reports (size : Z) (times : list D) (count : Z) :
  1 <= count <= Z.of_nat (List.length times) ->
  exists st,
    summarize size times count = Some st /\
    In (min_t st) (firstn (Z.to_nat count) times) /\
    In (max_t st) (firstn (Z.to_nat count) times) /\
    (forall t, In t (firstn (Z.to_nat count) times) ->
               ltb t (min_t st) = false /\ ltb (max_t st) t = false) /\
    avg_t st = div (fold_left add (firstn (Z.to_nat count) times) (of_Z 0))
                   (of_Z count) /\
    avg_bw st = div (div (of_Z size) (avg_t st)) GIB.
Proof.
  intros Hc.
  destruct (summarize_fold size times count Hc)
    as (t0 & rest & mn & mx & sm & -> & Hfold & Hsum).
  exists (mkStats (div sm (of_Z count))
                  (div (div (of_Z size) (div sm (of_Z count))) GIB) mn mx).
  split; [exact Hsum|]. cbn [min_t max_t avg_t avg_bw].
  set (l := firstn (Z.to_nat count) (t0 :: rest)) in *.
  assert (Ht0 : In t0 l).
  { subst l. destruct (Z.to_nat count) as [|k] eqn:Hk; [lia|].
    left. reflexivity. }
  assert (Hmn : mn = fst (fst (fold_left summary_step l (t0, t0, of_Z 0))))
    by (rewrite Hfold; reflexivity).
  assert (Hmx : mx = snd (fst (fold_left summary_step l (t0, t0, of_Z 0))))
    by (rewrite Hfold; reflexivity).
  assert (Hsm : sm = snd (fold_left summary_step l (t0, t0, of_Z 0)))
    by (rewrite Hfold; reflexivity).
  repeat split.
  - rewrite Hmn. destruct (fold_min_in l t0 t0 (of_Z 0)) as [<-|H];
      assumption.
  - rewrite Hmx. destruct (fold_max_in l t0 t0 (of_Z 0)) as [<-|H];
      assumption.
  - rewrite Hmn. apply fold_min_lower. right. assumption.
  - rewrite Hmx. apply fold_max_upper. right. assumption.
  - rewrite Hsm, fold_sum. reflexivity.
Qed.
End SummaryFacts.

(** *** IEEE doubles *)

Lemma SFcompare_Lt_trans (x y z : spec_float) :
  SFcompare x y = Some Lt -> SFcompare y z = Some Lt ->
  SFcompare x z = Some Lt.
Proof.
  destruct x as [sx|sx| |sx mx ex], y as [sy|sy| |sy my ey],
           z as [sz|sz| |sz mz ez]; cbn [SFcompare];
    try discriminate; try reflexivity;
    repeat match goal with
           | s : bool |- _ => destruct s
           end; try discriminate; try reflexivity.
  all: rewrite ?Pos.compare_cont_spec; unfold Pos.switch_Eq.
  all: destruct (Z.compare_spec ex ey), (Z.compare_spec ey ez),
                (Z.compare_spec ex ez); try discriminate; try reflexivity;
       try lia.
  all: destruct (Pos.compare_spec mx my), (Pos.compare_spec my mz),
                (Pos.compare_spec mx mz); cbn; try discriminate;
       try reflexivity; try lia.
Qed.

Lemma SFcompare_irrefl (x : spec_float) : SFcompare x x <> Some Lt.
Proof.
  destruct x as [s|s| |s m e]; cbn [SFcompare]; try discriminate;
    destruct s; try discriminate;
    rewrite Z.compare_refl, Pos.compare_cont_spec, Pos.compare_refl;
    discriminate.
Qed.

Lemma double_ltb_trans (x y z : double) :
  PrimFloat.ltb x y = true -> PrimFloat.ltb y z = true ->
  PrimFloat.ltb x z = true.
Proof.
  rewrite !ltb_spec. unfold SFltb.
  destruct (SFcompare (Prim2SF x) (Prim2SF y)) as [[ | | ]|] eqn:Hxy;
    try discriminate.
  destruct (SFcompare (Prim2SF y) (Prim2SF z)) as [[ | | ]|] eqn:Hyz;
    try discriminate.
  intros _ _. rewrite (SFcompare_Lt_trans _ _ _ Hxy Hyz). reflexivity.
Qed.

Lemma double_ltb_irrefl (x : double) : PrimFloat.ltb x x = false.
Proof.
  rewrite ltb_spec. unfold SFltb.
  destruct (SFcompare (Prim2SF x) (Prim2SF x)) as [[ | | ]|] eqn:Hx;
    try reflexivity.
  exfalso. exact (SFcompare_irrefl _ Hx).
Qed.

(** *** Exact arithmetic *)

Lemma exact_ltb_lt (x y : Q) : ltb x y = true <-> (x < y)%Q.
Proof.
  cbn [ltb exact_arith]. rewrite negb_true_iff.
  split.
  - intros H. apply Qnot_le_lt. intros Hle.
    apply Qle_bool_iff in Hle. congruence.
  - intros H. destruct (Qle_bool y x) eqn:E; [|reflexivity].
    apply Qle_bool_iff in E. exfalso. exact (Qlt_not_le _ _ H E).
Qed.

Lemma exact_ltb_ge (x y : Q) : ltb x y = false <-> (y <= x)%Q.
Proof.
  cbn [ltb exact_arith]. rewrite negb_false_iff. apply Qle_bool_iff.
Qed.

Lemma exact_ltb_trans (x y z : Q) :
  ltb x y = true -> ltb y z = true -> ltb x z = true.
Proof.
  rewrite !exact_ltb_lt. apply Qlt_trans.
Qed.

Lemma exact_ltb_irrefl (x : Q) : ltb x x = false.
Proof. apply exact_ltb_ge. apply Qle_refl. Qed.

(** A sum of samples that are all at least [m] is at least [length * m]. *)
Lemma exact_sum_lower (m : Q) (l : list Q) :
  forall s0 : Q,
    (forall t, In t l -> (m <= t)%Q) ->
    (s0 + inject_Z (Z.of_nat (List.length l)) * m <= fold_left Qplus l s0)%Q.
Proof.
  induction l as [|t l IH]; intros s0 Hl.
  - cbn. rewrite Qmult_0_l, Qplus_0_r. apply Qle_refl.
  - cbn [fold_left List.length].
    eapply Qle_trans; [|apply IH; intros u Hu; apply Hl; right; exact Hu].
    rewrite Nat2Z.inj_succ, <- Z.add_1_r, inject_Z_plus.
    assert (Hm : (m <= t)%Q) by (apply Hl; left; reflexivity).
    setoid_replace (s0 + (inject_Z (Z.of_nat (List.length l)) + inject_Z 1) * m)%Q
      with ((s0 + m) + inject_Z (Z.of_nat (List.length l)) * m)%Q by ring.
    apply Qplus_le_compat; [|apply Qle_refl].
    apply Qplus_le_compat; [apply Qle_refl | exact Hm].
Qed.

Lemma exact_sum_upper (m : Q) (l : list Q) :
  forall s0 : Q,
    (forall t, In t l -> (t <= m)%Q) ->
    (fold_left Qplus l s0 <= s0 + inject_Z (Z.of_nat (List.length l)) * m)%Q.
Proof.
  induction l as [|t l IH]; intros s0 Hl.
  - cbn. rewrite Qmult_0_l, Qplus_0_r. apply Qle_refl.
  - cbn [fold_left List.length].
    eapply Qle_trans; [apply IH; intros u Hu; apply Hl; right; exact Hu|].
    rewrite Nat2Z.inj_succ, <- Z.add_1_r, inject_Z_plus.
    assert (Hm : (t <= m)%Q) by (apply Hl; left; reflexivity).
    setoid_replace (s0 + (inject_Z (Z.of_nat (List.length l)) + inject_Z 1) * m)%Q
      with ((s0 + m) + inject_Z (Z.of_nat (List.length l)) * m)%Q by ring.
    apply Qplus_le_compat; [|apply Qle_refl].
    apply Qplus_le_compat; [apply Qle_refl | exact Hm].
Qed.

(** Without rounding the mean lies between the minimum and the maximum. *)
Lemma exact_mean_between (size : Z) (times : list Q) (count : Z) :
  1 <= count <= Z.of_nat (List.length times) ->
  exists st,
    summarize size times count = Some st /\
    (min_t st <= avg_t st)%Q /\ (avg_t st <= max_t st)%Q.
Proof.
  intros Hc.
  destruct (summarize_reports (A:=exact_arith)
              exact_ltb_trans exact_ltb_irrefl
              size times count Hc)
    as (st & Hst & _ & _ & Hbound & Havg & _).
  exists st. split; [exact Hst|].
  set (l := firstn (Z.to_nat count) times) in *.
  assert (Hlen : Z.of_nat (List.length l) = count).
  { subst l. rewrite length_firstn. lia. }
  assert (Hpos : (0 < inject_Z count)%Q).
  { change 0%Q with (inject_Z 0). rewrite <- Zlt_Qlt. lia. }
  rewrite Havg. cbn [div add of_Z exact_arith].
  split.
  - apply Qle_shift_div_l; [exact Hpos|].
    eapply Qle_trans;
      [|apply (exact_sum_lower (min_t st) l (inject_Z 0));
        intros t Ht; apply exact_ltb_ge; apply (Hbound t Ht)].
    rewrite Hlen, Qplus_0_l, Qmult_comm. apply Qle_refl.
  - apply Qle_shift_div_r; [exact Hpos|].
    eapply Qle_trans;
      [apply (exact_sum_upper (max_t st) l (inject_Z 0));
        intros t Ht; apply exact_ltb_ge; apply (Hbound t Ht)|].
    rewrite Hlen, Qplus_0_l, Qmult_comm. apply Qle_refl.
Qed.

(** *** What [print_summary] prints *)

Lemma print_summary_run (method : string) (size : Z) (times : list double)
    (count : Z) (st : stats double) (w : world) :
  summarize size times count = Some st ->
  print_summary method size times count w =
    Some (tt, mkWorld (clock w) (ticks w) (heap w) (allocs w)
                      (output w ++ [SummaryRow method size times count
                                      (avg_t st) (avg_bw st)
                                      (min_t st) (max_t st)])).
Proof.
  intros Hst. unfold print_summary, bind, lift. rewrite Hst. reflexivity.
Qed.

(** C8 (as stated, refuted): five samples of seven microseconds have
    minimum and maximum 7e-6, but the mean that [print_summary] computes in
    double arithmetic is strictly below the minimum. *)
Lemma print_summary_mean_below_min :
  exists st,
    summarize 4096 five_sevens 5 = Some st /\
    min_t st = seven_us /\ max_t st = seven_us /\
    PrimFloat.ltb (avg_t st) (min_t st) = true.
Proof.
  eexists. split; [vm_compute; reflexivity|].
  split; [reflexivity|]. split; [reflexivity|].
  vm_compute. reflexivity.
Qed.

(** C8 (amended): for every size and every array holding at least
    [count >= 1] samples, [print_summary] prints a row whose minimum and
    maximum are samples such that no sample is below the minimum or above
    the maximum, whose mean is the left-to-right double sum of the samples
    divided by [count], and whose bandwidth is [size / mean / 1024^3]
    (computed from the mean elapsed time, not from per-repeat bandwidths);
    the minimum is not above the maximum.  In arithmetic without rounding
    the same computation gives [min <= mean <= max]. *)
Theorem print_summary_reports (method : string) (size : Z) :
  (forall (times : list double) (count : Z) (w : world),
     1 <= count <= Z.of_nat (List.length times) ->
     exists st,
       print_summary method size times count w =
         Some (tt, mkWorld (clock w) (ticks w) (heap w) (allocs w)
                           (output w ++ [SummaryRow method size times count
                                           (avg_t st) (avg_bw st)
                                           (min_t st) (max_t st)])) /\
       In (min_t st) (firstn (Z.to_nat count) times) /\
       In (max_t st) (firstn (Z.to_nat count) times) /\
       (forall t, In t (firstn (Z.to_nat count) times) ->
                  PrimFloat.ltb t (min_t st) = false /\
                  PrimFloat.ltb (max_t st) t = false) /\
       PrimFloat.ltb (max_t st) (min_t st) = false /\
       avg_t st =
         PrimFloat.div
           (fold_left PrimFloat.add (firstn (Z.to_nat count) times)
                      (double_of_Z 0))
           (double_of_Z count) /\
       avg_bw st =
         PrimFloat.div (PrimFloat.div (double_of_Z size) (avg_t st)) GIB) /\
  (forall (times : list Q) (count : Z),
     1 <= count <= Z.of_nat (List.length times) ->
     exists st,
       summarize size times count = Some st /\
       (min_t st <= avg_t st)%Q /\ (avg_t st <= max_t st)%Q).
Proof.
  split.
  - intros times count w Hc.
    destruct (summarize_reports (A:=double_arith)
                double_ltb_trans double_ltb_irrefl
                size times count Hc)
      as (st & Hst & Hmin & Hmax & Hbound & Havg & Hbw).
    exists st. split; [apply print_summary_run; exact Hst|].
    repeat split; try assumption.
    + apply (Hbound t H).
    + apply (Hbound t H).
    + apply (Hbound (min_t st) Hmin).
  - intros times count Hc. apply exact_mean_between. exact Hc.
Qed.

Lemma print_summary_reports_witness :
  1 <= 5 <= Z.of_nat (List.length five_sevens) /\
  exists st,
    summarize 4096 five_sevens 5 = Some st /\
    PrimFloat.ltb (max_t st) (min_t st) = false.
Proof.
  assert (Hc : 1 <= 5 <= Z.of_nat (List.length five_sevens)) by (cbn; lia).
  split; [exact Hc|].
  destruct (proj1 (print_summary_reports "SHM-cpy  " 4096) five_sevens 5
              (mkWorld (fun _ => mkTimespec 0 0) 0 (fun _ => None) 0 [])
              Hc)
    as (st & Hrun & _ & _ & _ & Hmm & _).
  exists st. split; [|exact Hmm].
  unfold print_summary, bind, lift in Hrun.
  destruct (summarize 4096 five_sevens 5) as [st'|]; [|discriminate].
  cbn in Hrun. injection Hrun as H1 H2 H3 H4.
  destruct st as [a b c d], st' as [a' b' c' d']. cbn in *. congruence.
Defined.

(** ** The sequential benchmarks of the importer *)

Import Importer.
Local Open Scope monad_scope.

Lemma memset_ok (b : buffer) (v n : Z) :
  0 <= n <= capacity b ->
  exists b', memset b v n = Some b' /\ capacity b' = capacity b.
Proof.
  intros Hn. unfold memset.
  replace (0 <=? n) with true by (symmetry; apply Z.leb_le; lia).
  replace (n <=? capacity b) with true by (symmetry; apply Z.leb_le; lia).
  eexists. split; reflexivity.
Qed.

Lemma memcpy_ok (dst src : buffer) (n : Z) :
  0 <= n <= capacity dst -> n <= capacity src ->
  exists b', memcpy dst src n = Some b' /\ capacity b' = capacity dst.
Proof.
  intros Hn Hs. unfold memcpy.
  replace (0 <=? n) with true by (symmetry; apply Z.leb_le; lia).
  replace (n <=? capacity dst) with true by (symmetry; apply Z.leb_le; lia).
  replace (n <=? capacity src) with true by (symmetry; apply Z.leb_le; lia).
  eexists. split; reflexivity.
Qed.

Lemma array_set_get {A : Type} (a : list A) (i : Z) (v : A) :
  0 <= i < Z.of_nat (List.length a) ->
  exists a',
    array_set a i v = Some a' /\ array_get a' i = Some v /\
    List.length a' = List.length a.
Proof.
  intros Hi. unfold array_set.
  replace (0 <=? i) with true by (symmetry; apply Z.leb_le; lia).
  replace (i <? Z.of_nat (List.length a)) with true
    by (symmetry; apply Z.ltb_lt; lia).
  eexists. split; [reflexivity|]. split.
  - rewrite array_get_nth by lia.
    rewrite nth_error_app2 by (rewrite length_firstn; lia).
    rewrite length_firstn.
    replace (Z.to_nat i - Nat.min (Z.to_nat i) (List.length a))%nat with O
      by lia.
    reflexivity.
  - rewrite length_app, length_firstn. cbn [List.length].
    rewrite length_skipn. lia.
Qed.

(** The verifier always returns when the region holds [size] bytes. *)
Lemma verify_loop_total (n : nat) :
  forall (p : buffer) (i : Z),
    0 <= i -> i + Z.of_nat n <= capacity p -> i + Z.of_nat n < 2 ^ 64 ->
    exists err, verify_loop n p i = Some err.
Proof.
  induction n as [|n IH]; intros p i Hi Hcap Hmax; [exists 0; reflexivity|].
  cbn [verify_loop]. rewrite load_in_bounds by lia.
  destruct (negb (byte_at p i =? uint8 (Z.land i 255))).
  - eexists. reflexivity.
  - rewrite wrap64_small by lia. apply IH; lia.
Qed.

Lemma verify_pattern_total (b : buffer) (size : Z) :
  is_size_t size -> size <= capacity b ->
  exists err, verify_pattern b size = Some err.
Proof.
  unfold is_size_t, SIZE_MAX, verify_pattern. intros Hs Hcap.
  apply verify_loop_total; rewrite ?Z2Nat.id by lia; lia.
Qed.

Lemma timeline_app (xs ys : list event) :
  timeline (xs ++ ys) = timeline xs ++ timeline ys.
Proof. unfold timeline. apply flat_map_app. Qed.

(** Symbolic execution of the monadic code: unfold the plumbing, leave the
    memory operations to the lemmas above. *)
Ltac mstep :=
  cbv beta iota zeta
      delta [bind ret lift emit get_time_sec print_result
             call_verify_pattern];
  cbn [clock ticks heap allocs output].

Ltac use_ok H :=
  let b := fresh "b" in
  let Hb := fresh "Hb" in
  let Hc := fresh "Hc" in
  destruct H as (b & Hb & Hc); rewrite Hb; mstep.

Lemma memcpy_repeats_spec (n : nat) :
  forall (attached_ptr local_buf : buffer) (size : Z) (times : list double)
         (r : Z) (w : world),
    is_size_t size ->
    size <= capacity local_buf -> size <= capacity attached_ptr ->
    0 <= r -> r + Z.of_nat n <= Z.of_nat (List.length times) ->
    exists local_buf' times' w' evs,
      memcpy_repeats n attached_ptr local_buf size times r w
        = Some ((local_buf', times'), w') /\
      capacity local_buf' = capacity local_buf /\
      List.length times' = List.length times /\
      heap w' = heap w /\ allocs w' = allocs w /\
      output w' = output w ++ evs /\
      timeline evs = memcpy_repeats_marks n size r.
Proof.
  induction n as [|n IH];
    intros attached_ptr local_buf size times r w Hs Hl Ha Hr Hlen.
  - exists local_buf, times, w, []. cbn. rewrite app_nil_r.
    repeat split; reflexivity.
  - cbn [memcpy_repeats memcpy_repeats_marks]. mstep.
    use_ok (memset_ok local_buf 0 size ltac:(unfold is_size_t in Hs; lia)).
    use_ok (memcpy_ok b attached_ptr size
              ltac:(unfold is_size_t in Hs; lia) ltac:(lia)).
    match goal with
    | |- context [array_set times r ?v] =>
        destruct (array_set_get times r v ltac:(lia))
          as (times1 & Hset & Hget & Hlen1)
    end.
    rewrite Hset. mstep. rewrite Hget. mstep.
    destruct (r =? 0) eqn:Hr0; mstep.
    + destruct (verify_pattern_total b0 size Hs ltac:(lia)) as (err & Herr).
      rewrite Herr. mstep.
      destruct (negb (err =? 0)); mstep;
        match goal with
        | |- context [memcpy_repeats n attached_ptr b0 size times1 (r + 1) ?w1] =>
            destruct (IH attached_ptr b0 size times1 (r + 1) w1)
              as (lb & ts & w' & evs & Hrun & Hcap & Hlts & Hh & Hal
                  & Hout & Htl);
              [exact Hs | lia | lia | lia | lia |]
        end;
        rewrite Hrun; exists lb, ts, w'; eexists;
        (split; [reflexivity|]);
        (split; [lia|]); (split; [lia|]);
        (split; [exact Hh|]); (split; [exact Hal|]);
        (split; [rewrite Hout; cbn [output]; rewrite <- !app_assoc;
                 reflexivity|]);
        rewrite !timeline_app, Htl; reflexivity.
    + match goal with
      | |- context [memcpy_repeats n attached_ptr b0 size times1 (r + 1) ?w1] =>
          destruct (IH attached_ptr b0 size times1 (r + 1) w1)
            as (lb & ts & w' & evs & Hrun & Hcap & Hlts & Hh & Hal
                & Hout & Htl);
            [exact Hs | lia | lia | lia | lia |]
      end.
      rewrite Hrun. exists lb, ts, w'. eexists.
      split; [reflexivity|]. split; [lia|]. split; [lia|].
      split; [exact Hh|]. split; [exact Hal|].
      split; [rewrite Hout; cbn [output]; rewrite <- !app_assoc; reflexivity|].
      rewrite !timeline_app, Htl. reflexivity.
Qed.

Lemma summarize_total (size : Z) (times : list double) (count : Z) :
  1 <= count <= Z.of_nat (List.length times) ->
  exists st, summarize size times count = Some st.
Proof.
  intros Hc.
  destruct (summarize_fold size times count Hc)
    as (t0 & rest & mn & mx & sm & _ & _ & Hst).
  eexists. exact Hst.
Qed.

(** [print_summary(method, size, times, REPEAT_COUNT)] on a five-element
    array prints one summary row. *)
Lemma print_summary_five (method : string) (size : Z) (times : list double)
    (w : world) :
  List.length times = 5%nat ->
  exists e,
    print_summary method size times REPEAT_COUNT w =
      Some (tt, mkWorld (clock w) (ticks w) (heap w) (allocs w)
                        (output w ++ [e])) /\
    mark_of e = [Sum method size REPEAT_COUNT 5].
Proof.
  intros Hlen.
  destruct (summarize_total size times REPEAT_COUNT) as (st & Hst).
  { rewrite Hlen. unfold REPEAT_COUNT. lia. }
  eexists. split; [apply print_summary_run; exact Hst|].
  cbn [mark_of]. rewrite Hlen. reflexivity.
Qed.

Lemma fresh_times_length : List.length fresh_times = 5%nat.
Proof. reflexivity. Qed.

Lemma repeat_count_nat : Z.to_nat REPEAT_COUNT = 5%nat.
Proof. reflexivity. Qed.

Lemma memcpy_sizes_spec (sizes : list Z) :
  forall (attached_ptr local_buf : buffer) (max_size : Z) (w : world),
    Forall is_size_t sizes ->
    max_size <= capacity local_buf -> max_size <= capacity attached_ptr ->
    exists local_buf' w' evs,
      memcpy_sizes sizes attached_ptr local_buf max_size w
        = Some (local_buf', w') /\
      capacity local_buf' = capacity local_buf /\
      heap w' = heap w /\ allocs w' = allocs w /\
      output w' = output w ++ evs /\
      timeline evs = flat_map memcpy_cycle (sizes_run sizes max_size).
Proof.
  induction sizes as [|size rest IH];
    intros attached_ptr local_buf max_size w Hsz Hl Ha.
  - exists local_buf, w, []. cbn. rewrite app_nil_r.
    repeat split; reflexivity.
  - cbn [memcpy_sizes sizes_run].
    inversion Hsz as [|? ? Hs Hrest]; subst.
    destruct (Z.gtb_spec size max_size) as [Hgt|Hle].
    + exists local_buf, w, []. cbn. rewrite app_nil_r.
      repeat split; reflexivity.
    + rewrite repeat_count_nat. mstep.
      destruct (memcpy_repeats_spec 5 attached_ptr local_buf size fresh_times
                  0 w Hs ltac:(lia) ltac:(lia) ltac:(lia)
                  ltac:(rewrite fresh_times_length; lia))
        as (lb & ts & w1 & evs1 & Hrun & Hcap & Hlts & Hh1 & Hal1 & Hout1
            & Htl1).
      rewrite Hrun. mstep.
      destruct (print_summary_five "xpmem-cpy" size ts w1
                  ltac:(rewrite Hlts; apply fresh_times_length))
        as (e & Hsum & Hmark).
      rewrite Hsum. mstep.
      match goal with
      | |- context [memcpy_sizes rest attached_ptr lb max_size ?w2] =>
          destruct (IH attached_ptr lb max_size w2 Hrest ltac:(lia) Ha)
            as (lb' & w' & evs & Hrun' & Hcap' & Hh & Hal & Hout & Htl)
      end.
      rewrite Hrun'. exists lb', w'. eexists.
      split; [reflexivity|]. split; [lia|].
      split; [rewrite Hh; exact Hh1|]. split; [rewrite Hal; exact Hal1|].
      split.
      * rewrite Hout. cbn [output]. rewrite Hout1, <- !app_assoc.
        reflexivity.
      * rewrite !timeline_app, Htl1, Htl. cbn [flat_map].
        unfold memcpy_cycle. cbn [timeline flat_map].
        rewrite Hmark, <- !app_assoc. reflexivity.
Qed.

Lemma test_sizes_are_sizes : Forall is_size_t TEST_SIZES.
Proof.
  unfold TEST_SIZES, is_size_t, SIZE_MAX.
  repeat (constructor; [lia|]). constructor.
Qed.

Lemma bench_xpmem_memcpy_spec (attached_ptr local_buf : buffer)
    (max_size : Z) (w : world) :
  max_size <= capacity local_buf -> max_size <= capacity attached_ptr ->
  exists local_buf' w' evs,
    bench_xpmem_memcpy attached_ptr local_buf max_size w
      = Some (local_buf', w') /\
    capacity local_buf' = capacity local_buf /\
    heap w' = heap w /\ allocs w' = allocs w /\
    output w' = output w ++ evs /\
    timeline evs = flat_map memcpy_cycle (sizes_run TEST_SIZES max_size).
Proof.
  intros Hl Ha. unfold bench_xpmem_memcpy. mstep.
  match goal with
  | |- context [memcpy_sizes TEST_SIZES attached_ptr local_buf max_size ?w2] =>
      destruct (memcpy_sizes_spec TEST_SIZES attached_ptr local_buf max_size
                  w2 test_sizes_are_sizes Hl Ha)
        as (lb' & w' & evs & Hrun' & Hcap' & Hh & Hal & Hout & Htl)
  end.
  rewrite Hrun'. exists lb', w'. eexists.
  split; [reflexivity|]. split; [exact Hcap'|].
  split; [exact Hh|]. split; [exact Hal|]. split.
  - rewrite Hout. cbn [output]. rewrite <- !app_assoc. reflexivity.
  - rewrite !timeline_app, Htl. reflexivity.
Qed.

(** The traversal of [bench_xpmem_direct] stays inside a region that holds
    the words it reads. *)
Lemma direct_sum_total (n : nat) :
  forall (p : buffer) (i checksum : Z),
    0 <= i -> 8 * (i + Z.of_nat n) <= capacity p -> i + Z.of_nat n < 2 ^ 64 ->
    exists v, direct_sum n p i checksum = Some v.
Proof.
  induction n as [|n IH]; intros p i checksum Hi Hcap Hmax.
  - eexists. reflexivity.
  - cbn [direct_sum]. unfold load64.
    replace (0 <=? i) with true by (symmetry; apply Z.leb_le; lia).
    replace (8 * i + 8 <=? capacity p) with true
      by (symmetry; apply Z.leb_le; lia).
    cbn [andb]. rewrite (wrap64_small (i + 1)) by lia.
    apply IH; lia.
Qed.

Lemma direct_words_fit (size cap : Z) :
  is_size_t size -> size <= cap ->
  8 * (0 + Z.of_nat (Z.to_nat (direct_word_count size))) <= cap /\
  0 + Z.of_nat (Z.to_nat (direct_word_count size)) < 2 ^ 64.
Proof.
  unfold is_size_t, SIZE_MAX, direct_word_count, SIZEOF_UINT64.
  intros Hs Hcap.
  assert (0 <= size / 8) by (apply Z.div_pos; lia).
  assert (8 * (size / 8) <= size) by (apply Z.mul_div_le; lia).
  rewrite Z2Nat.id by lia. lia.
Qed.

Lemma direct_repeats_spec (n : nat) :
  forall (attached_ptr : buffer) (size : Z) (times : list double) (r : Z)
         (w : world),
    is_size_t size -> size <= capacity attached_ptr ->
    0 <= r -> r + Z.of_nat n <= Z.of_nat (List.length times) ->
    exists times' w' evs,
      direct_repeats n attached_ptr size times r w = Some (times', w') /\
      List.length times' = List.length times /\
      heap w' = heap w /\ allocs w' = allocs w /\
      output w' = output w ++ evs /\
      timeline evs = rows "xpmem-dir" n size r.
Proof.
  induction n as [|n IH]; intros attached_ptr size times r w Hs Ha Hr Hlen.
  - exists times, w, []. cbn. rewrite app_nil_r. repeat split; reflexivity.
  - cbn [direct_repeats rows]. mstep.
    destruct (direct_words_fit size (capacity attached_ptr) Hs Ha)
      as (Hfit & Hmax).
    destruct (direct_sum_total (Z.to_nat (direct_word_count size))
                attached_ptr 0 0 ltac:(lia) Hfit Hmax) as (v & Hv).
    rewrite Hv. mstep.
    match goal with
    | |- context [array_set times r ?v] =>
        destruct (array_set_get times r v ltac:(lia))
          as (times1 & Hset & Hget & Hlen1)
    end.
    rewrite Hset. mstep. rewrite Hget. mstep.
    match goal with
    | |- context [direct_repeats n attached_ptr size times1 (r + 1) ?w1] =>
        destruct (IH attached_ptr size times1 (r + 1) w1)
          as (ts & w' & evs & Hrun & Hlts & Hh & Hal & Hout & Htl);
          [exact Hs | lia | lia | lia |]
    end.
    rewrite Hrun. exists ts, w'. eexists.
    split; [reflexivity|]. split; [lia|].
    split; [exact Hh|]. split; [exact Hal|].
    split; [rewrite Hout; cbn [output]; rewrite <- !app_assoc; reflexivity|].
    rewrite !timeline_app, Htl. reflexivity.
Qed.

Lemma direct_sizes_spec (sizes : list Z) :
  forall (attached_ptr : buffer) (max_size : Z) (w : world),
    Forall is_size_t sizes -> max_size <= capacity attached_ptr ->
    exists w' evs,
      direct_sizes sizes attached_ptr max_size w = Some (tt, w') /\
      heap w' = heap w /\ allocs w' = allocs w /\
      output w' = output w ++ evs /\
      timeline evs =
        flat_map (plain_cycle "xpmem-dir") (sizes_run sizes max_size).
Proof.
  induction sizes as [|size rest IH]; intros attached_ptr max_size w Hsz Ha.
  - exists w, []. cbn. rewrite app_nil_r. repeat split; reflexivity.
  - cbn [direct_sizes sizes_run].
    inversion Hsz as [|? ? Hs Hrest]; subst.
    destruct (Z.gtb_spec size max_size) as [Hgt|Hle].
    + exists w, []. cbn. rewrite app_nil_r. repeat split; reflexivity.
    + rewrite repeat_count_nat. mstep.
      destruct (direct_repeats_spec 5 attached_ptr size fresh_times 0 w Hs
                  ltac:(lia) ltac:(lia)
                  ltac:(rewrite fresh_times_length; lia))
        as (ts & w1 & evs1 & Hrun & Hlts & Hh1 & Hal1 & Hout1 & Htl1).
      rewrite Hrun. mstep.
      destruct (print_summary_five "xpmem-dir" size ts w1
                  ltac:(rewrite Hlts; apply fresh_times_length))
        as (e & Hsum & Hmark).
      rewrite Hsum. mstep.
      match goal with
      | |- context [direct_sizes rest attached_ptr max_size ?w2] =>
          destruct (IH attached_ptr max_size w2 Hrest Ha)
            as (w' & evs & Hrun' & Hh & Hal & Hout & Htl)
      end.
      rewrite Hrun'. exists w'. eexists.
      split; [reflexivity|].
      split; [rewrite Hh; exact Hh1|]. split; [rewrite Hal; exact Hal1|].
      split.
      * rewrite Hout. cbn [output]. rewrite Hout1, <- !app_assoc.
        reflexivity.
      * rewrite !timeline_app, Htl1, Htl. cbn [flat_map].
        unfold plain_cycle. cbn [timeline flat_map].
        rewrite Hmark, <- !app_assoc. reflexivity.
Qed.

Lemma bench_xpmem_direct_spec (attached_ptr : buffer) (max_size : Z)
    (w : world) :
  max_size <= capacity attached_ptr ->
  exists w' evs,
    bench_xpmem_direct attached_ptr max_size w = Some (tt, w') /\
    heap w' = heap w /\ allocs w' = allocs w /\
    output w' = output w ++ evs /\
    timeline evs =
      flat_map (plain_cycle "xpmem-dir") (sizes_run TEST_SIZES max_size).
Proof.
  intros Ha. unfold bench_xpmem_direct. mstep.
  match goal with
  | |- context [direct_sizes TEST_SIZES attached_ptr max_size ?w2] =>
      destruct (direct_sizes_spec TEST_SIZES attached_ptr max_size w2
                  test_sizes_are_sizes Ha)
        as (w' & evs & Hrun' & Hh & Hal & Hout & Htl)
  end.
  rewrite Hrun'. exists w'. eexists.
  split; [reflexivity|]. split; [exact Hh|]. split; [exact Hal|]. split.
  - rewrite Hout. cbn [output]. rewrite <- !app_assoc. reflexivity.
  - rewrite !timeline_app, Htl. reflexivity.
Qed.

Lemma local_repeats_spec (n : nat) :
  forall (src dst : buffer) (size : Z) (times : list double) (r : Z)
         (w : world),
    is_size_t size -> size <= capacity dst -> size <= capacity src ->
    0 <= r -> r + Z.of_nat n <= Z.of_nat (List.length times) ->
    exists dst' times' w' evs,
      local_repeats n src dst size times r w = Some ((dst', times'), w') /\
      capacity dst' = capacity dst /\
      List.length times' = List.length times /\
      heap w' = heap w /\ allocs w' = allocs w /\
      output w' = output w ++ evs /\
      timeline evs = rows "LOCAL-cpy" n size r.
Proof.
  induction n as [|n IH]; intros src dst size times r w Hs Hd Hsrc Hr Hlen.
  - exists dst, times, w, []. cbn. rewrite app_nil_r.
    repeat split; reflexivity.
  - cbn [local_repeats rows]. mstep.
    use_ok (memset_ok dst 0 size ltac:(unfold is_size_t in Hs; lia)).
    use_ok (memcpy_ok b src size
              ltac:(unfold is_size_t in Hs; lia) ltac:(lia)).
    match goal with
    | |- context [array_set times r ?v] =>
        destruct (array_set_get times r v ltac:(lia))
          as (times1 & Hset & Hget & Hlen1)
    end.
    rewrite Hset. mstep. rewrite Hget. mstep.
    match goal with
    | |- context [local_repeats n src b0 size times1 (r + 1) ?w1] =>
        destruct (IH src b0 size times1 (r + 1) w1)
          as (d' & ts & w' & evs & Hrun & Hcap & Hlts & Hh & Hal & Hout
              & Htl);
          [exact Hs | lia | lia | lia | lia |]
    end.
    rewrite Hrun. exists d', ts, w'. eexists.
    split; [reflexivity|]. split; [lia|]. split; [lia|].
    split; [exact Hh|]. split; [exact Hal|].
    split; [rewrite Hout; cbn [output]; rewrite <- !app_assoc; reflexivity|].
    rewrite !timeline_app, Htl. reflexivity.
Qed.

Lemma local_sizes_spec (sizes : list Z) :
  forall (src dst : buffer) (max_size : Z) (w : world),
    Forall is_size_t sizes ->
    max_size <= capacity dst -> max_size <= capacity src ->
    exists w' evs,
      local_sizes sizes src dst max_size w = Some (tt, w') /\
      heap w' = heap w /\ allocs w' = allocs w /\
      output w' = output w ++ evs /\
      timeline evs =
        flat_map (plain_cycle "LOCAL-cpy") (sizes_run sizes max_size).
Proof.
  induction sizes as [|size rest IH]; intros src dst max_size w Hsz Hd Hsrc.
  - exists w, []. cbn. rewrite app_nil_r. repeat split; reflexivity.
  - cbn [local_sizes sizes_run].
    inversion Hsz as [|? ? Hs Hrest]; subst.
    destruct (Z.gtb_spec size max_size) as [Hgt|Hle].
    + exists w, []. cbn. rewrite app_nil_r. repeat split; reflexivity.
    + rewrite repeat_count_nat. mstep.
      destruct (local_repeats_spec 5 src dst size fresh_times 0 w Hs
                  ltac:(lia) ltac:(lia) ltac:(lia)
                  ltac:(rewrite fresh_times_length; lia))
        as (d1 & ts & w1 & evs1 & Hrun & Hcap & Hlts & Hh1 & Hal1 & Hout1
            & Htl1).
      rewrite Hrun. mstep.
      destruct (print_summary_five "LOCAL-cpy" size ts w1
                  ltac:(rewrite Hlts; apply fresh_times_length))
        as (e & Hsum & Hmark).
      rewrite Hsum. mstep.
      match goal with
      | |- context [local_sizes rest src d1 max_size ?w2] =>
          destruct (IH src d1 max_size w2 Hrest ltac:(lia) Hsrc)
            as (w' & evs & Hrun' & Hh & Hal & Hout & Htl)
      end.
      rewrite Hrun'. exists w'. eexists.
      split; [reflexivity|].
      split; [rewrite Hh; exact Hh1|]. split; [rewrite Hal; exact Hal1|].
      split.
      * rewrite Hout. cbn [output]. rewrite Hout1, <- !app_assoc.
        reflexivity.
      * rewrite !timeline_app, Htl1, Htl. cbn [flat_map].
        unfold plain_cycle. cbn [timeline flat_map].
        rewrite Hmark, <- !app_assoc. reflexivity.
Qed.

Lemma bench_local_memcpy_spec (max_size : Z) (w : world) :
  is_size_t max_size ->
  exists w' evs,
    bench_local_memcpy max_size w = Some (tt, w') /\
    heap w' = heap w /\ allocs w' = S (S (allocs w)) /\
    output w' = output w ++ evs /\
    timeline evs =
      if local_buffers_available w
      then flat_map (plain_cycle "LOCAL-cpy") (sizes_run TEST_SIZES max_size)
      else [].
Proof.
  intros Hm. unfold is_size_t in Hm.
  unfold bench_local_memcpy, local_buffers_available. mstep.
  unfold alloc_aligned. cbn [clock ticks heap allocs output].
  destruct (heap w (allocs w)) as [c1|];
    cbn [clock ticks heap allocs output];
    destruct (heap w (S (allocs w))) as [c2|];
    cbn [clock ticks heap allocs output].
  - destruct (memset_ok (mkBuffer max_size c1) 170 max_size
                ltac:(cbn [capacity]; lia)) as (src & Hsrc & Hcs).
    rewrite Hsrc.
    destruct (memset_ok (mkBuffer max_size c2) 0 max_size
                ltac:(cbn [capacity]; lia)) as (dst & Hdst & Hcd).
    rewrite Hdst. cbn [capacity] in Hcs, Hcd.
    match goal with
    | |- context [local_sizes TEST_SIZES src dst max_size ?w2] =>
        destruct (local_sizes_spec TEST_SIZES src dst max_size w2
                    test_sizes_are_sizes ltac:(lia) ltac:(lia))
          as (w' & evs & Hrun' & Hh & Hal & Hout & Htl)
    end.
    rewrite Hrun'. exists w'. eexists.
    split; [reflexivity|]. split; [exact Hh|]. split; [exact Hal|]. split.
    + rewrite Hout. cbn [output]. rewrite <- !app_assoc. reflexivity.
    + rewrite !timeline_app, Htl. reflexivity.
  - eexists. eexists. split; [reflexivity|]. cbn [heap allocs output].
    split; [reflexivity|]. split; [reflexivity|].
    split; [rewrite <- !app_assoc; reflexivity|]. reflexivity.
  - eexists. eexists. split; [reflexivity|]. cbn [heap allocs output].
    split; [reflexivity|]. split; [reflexivity|].
    split; [rewrite <- !app_assoc; reflexivity|]. reflexivity.
  - eexists. eexists. split; [reflexivity|]. cbn [heap allocs output].
    split; [reflexivity|]. split; [reflexivity|].
    split; [rewrite <- !app_assoc; reflexivity|]. reflexivity.
Qed.

Lemma wait_for_file_returns (n : nat) (w : world) :
  wait_for_file n w = Some (tt, w).
Proof. induction n as [|n IH]; [reflexivity | exact IH]. Qed.

(** ** The importer's [main] *)

(** C7: when the descriptor file does not parse into exactly three fields,
    the importer prints a diagnostic on the error stream and exits with
    status 1, and nothing it has printed is a benchmark row. *)
Theorem main_rejects_malformed_descriptor (e : env) (d : descriptor)
    (w : world) :
  segid_file e = Some d ->
  fields d <> 3 ->
  exists evs,
    main e w = Some (1, mkWorld (clock w) (ticks w) (heap w) (allocs w)
                                (output w ++ evs)) /\
    In (Text Stderr "segment id file has an invalid format") evs /\
    timeline evs = [].
Proof.
  intros Hfile Hfields. unfold main. mstep.
  rewrite wait_for_file_returns. mstep. rewrite Hfile.
  destruct (Z.eqb_spec (fields d) 3) as [Heq|_]; [contradiction|].
  cbn [negb]. mstep.
  eexists. split; [rewrite <- !app_assoc; reflexivity|].
  split; [|reflexivity].
  cbn. tauto.
Qed.

Lemma main_rejects_malformed_descriptor_witness :
  segid_file truncated_env = Some truncated_descriptor /\
  fields truncated_descriptor <> 3 /\
  exists evs,
    main truncated_env steady_world =
      Some (1, mkWorld (clock steady_world) (ticks steady_world)
                       (heap steady_world) (allocs steady_world)
                       (output steady_world ++ evs)) /\
    In (Text Stderr "segment id file has an invalid format") evs /\
    timeline evs = [].
Proof.
  assert (H1 : segid_file truncated_env = Some truncated_descriptor)
    by reflexivity.
  assert (H2 : fields truncated_descriptor <> 3) by (cbn; lia).
  split; [exact H1|]. split; [exact H2|].
  exact (main_rejects_malformed_descriptor truncated_env truncated_descriptor
           steady_world H1 H2).
Defined.

(** A run of the importer whose setup succeeds: the three benchmarks run in
    order, each over the entries of the table that fit the capacity. *)
Lemma main_runs_benchmarks (e : env) (d : descriptor) (contents : Z -> Z)
    (w : world) :
  segid_file e = Some d ->
  fields d = 3 ->
  is_size_t (max_size d) ->
  xpmem_get_result e <> -1 ->
  xpmem_attach_result e = Some contents ->
  heap w (allocs w) <> None ->
  exists w' evs,
    main e w = Some (0, w') /\
    output w' = output w ++ evs /\
    timeline evs =
      flat_map memcpy_cycle (sizes_run TEST_SIZES (max_size d))
      ++ flat_map (plain_cycle "xpmem-dir")
                  (sizes_run TEST_SIZES (max_size d))
      ++ (if local_buffers_available
               (mkWorld (clock w) (ticks w) (heap w) (S (allocs w)) [])
          then flat_map (plain_cycle "LOCAL-cpy")
                        (sizes_run TEST_SIZES (max_size d))
          else []).
Proof.
  intros Hfile Hfields Hsz Hget Hatt Halloc. unfold main. mstep.
  rewrite wait_for_file_returns. mstep. rewrite Hfile, Hfields.
  cbn [Z.eqb Pos.eqb negb]. mstep.
  destruct (Z.eqb_spec (xpmem_get_result e) (-1)) as [Heq|_];
    [contradiction|].
  mstep. rewrite Hatt. mstep.
  unfold alloc_aligned. cbn [clock ticks heap allocs output].
  destruct (heap w (allocs w)) as [c|] eqn:Hheap; [|contradiction].
  mstep.
  match goal with
  | |- context [bench_xpmem_memcpy ?a ?l (max_size d) ?w1] =>
      destruct (bench_xpmem_memcpy_spec a l (max_size d) w1
                  ltac:(cbn [capacity]; lia) ltac:(cbn [capacity]; lia))
        as (lb & w2 & evs2 & Hrun2 & _ & Hh2 & Hal2 & Hout2 & Htl2);
      rewrite Hrun2; mstep;
      destruct (bench_xpmem_direct_spec a (max_size d) w2
                  ltac:(cbn [capacity]; lia))
        as (w3 & evs3 & Hrun3 & Hh3 & Hal3 & Hout3 & Htl3);
      rewrite Hrun3; mstep
  end.
  destruct (bench_local_memcpy_spec (max_size d) w3 Hsz)
    as (w4 & evs4 & Hrun4 & Hh4 & Hal4 & Hout4 & Htl4).
  rewrite Hrun4. mstep.
  eexists. eexists. split; [reflexivity|]. cbn [output]. split.
  - rewrite Hout4, Hout3, Hout2. cbn [output]. rewrite <- !app_assoc.
    reflexivity.
  - rewrite !timeline_app, Htl2, Htl3, Htl4.
    cbn [timeline flat_map mark_of app].
    replace (local_buffers_available w3)
      with (local_buffers_available
              (mkWorld (clock w) (ticks w) (heap w) (S (allocs w)) [])).
    + rewrite app_nil_r. reflexivity.
    + unfold local_buffers_available.
      rewrite Hh3, Hal3, Hh2, Hal2. reflexivity.
Qed.

(** ** The handshake of shm_bench *)

Import ShmBench.

Arguments fill_pattern : simpl never.
Arguments verify_pattern : simpl never.

Lemma test_sizes_entry (i size : Z) :
  array_get TEST_SIZES i = Some size ->
  0 <= i < NUM_TEST_SIZES /\ 0 < size <= max_size /\ is_size_t size /\
  size mod 8 = 0.
Proof.
  unfold array_get. destruct (Z.leb_spec 0 i) as [Hi|]; [|discriminate].
  intros Hnth.
  assert (Hlt : (Z.to_nat i < 8)%nat).
  { change 8%nat with (List.length TEST_SIZES).
    apply nth_error_Some. rewrite Hnth. discriminate. }
  unfold NUM_TEST_SIZES, is_size_t, SIZE_MAX.
  change max_size with 1073741824.
  change (Z.of_nat (List.length TEST_SIZES)) with 8.
  split; [lia|].
  destruct (Z.to_nat i) as [|[|[|[|[|[|[|[|k]]]]]]]];
    try (cbn in Hnth; injection Hnth as <-; cbn; lia).
  lia.
Qed.

Lemma store_capacity (b b' : buffer) (i v : Z) :
  store b i v = Some b' -> capacity b' = capacity b.
Proof.
  unfold store. destruct (in_bounds b i); [|discriminate].
  intros H. injection H as <-. reflexivity.
Qed.

Lemma fill_loop_capacity (n : nat) :
  forall (p p' : buffer) (i : Z),
    fill_loop n p i = Some p' -> capacity p' = capacity p.
Proof.
  induction n as [|n IH]; intros p p' i H.
  - injection H as <-. reflexivity.
  - cbn [fill_loop] in H.
    destruct (store p i (uint8 (Z.land i 255))) as [q|] eqn:Hq;
      [|discriminate].
    rewrite (IH _ _ _ H). exact (store_capacity _ _ _ _ Hq).
Qed.

Lemma fill_pattern_capacity (b b' : buffer) (size : Z) :
  fill_pattern b size = Some b' -> capacity b' = capacity b.
Proof. apply fill_loop_capacity. Qed.

Lemma memset_capacity (b b' : buffer) (v n : Z) :
  memset b v n = Some b' -> capacity b' = capacity b.
Proof.
  unfold memset. destruct ((0 <=? n) && (n <=? capacity b)); [|discriminate].
  intros H. injection H as <-. reflexivity.
Qed.

Lemma memcpy_capacity (dst src b' : buffer) (n : Z) :
  memcpy dst src n = Some b' -> capacity b' = capacity dst.
Proof.
  unfold memcpy.
  destruct ((0 <=? n) && (n <=? capacity dst) && (n <=? capacity src));
    [|discriminate].
  intros H. injection H as <-. reflexivity.
Qed.

Lemma array_set_length {A : Type} (a a' : list A) (i : Z) (v : A) :
  array_set a i v = Some a' -> List.length a' = List.length a.
Proof.
  unfold array_set.
  destruct (Z.leb_spec 0 i) as [Hi|]; [|discriminate].
  destruct (Z.ltb_spec i (Z.of_nat (List.length a))) as [Hlt|]; [|discriminate].
  cbn [andb]. intros H. injection H as <-.
  rewrite length_app, length_firstn.
  destruct a as [|x a]; [cbn in Hlt; lia|].
  cbn [List.length] in *. rewrite length_skipn. lia.
Qed.

Ltac destruct_state s :=
  let ph := fresh "ph" in
  let ds := fresh "ds" in
  let it := fresh "it" in
  let ct := fresh "ct" in
  let ve := fresh "ve" in
  let shm := fresh "shm" in
  let ppc := fresh "ppc" in
  let si := fresh "si" in
  let r := fresh "r" in
  let psz := fresh "psz" in
  let times := fresh "times" in
  let cpc := fresh "cpc" in
  let lb := fresh "lb" in
  let csz := fresh "csz" in
  let el := fresh "el" in
  let w := fresh "w" in
  let log := fresh "log" in
  destruct s as [[ph ds it ct ve] shm [ppc si r psz times]
                 [cpc lb csz el] w log].

Ltac proj_simpl :=
  cbn [ctrl shm_ptr par chi env accesses
       phase data_size iteration copy_time verify_err
       p_pc si r p_size times c_pc local_buf c_size elapsed
       set_pc set_cpc set_phase set_data_size set_iteration set_copy_time
       set_verify_err] in *.

(** Take the step apart: afterwards the new state is explicit. *)
Ltac open_step H :=
  cbv beta iota zeta
      delta [step parent_step child_step bind ret lift emit get_time_sec
             print_result print_summary call_verify_pattern alloc_aligned]
    in H;
  proj_simpl;
  repeat match type of H with
         | Some _ = Some _ => injection H as H
         | None = Some _ => discriminate H
         | context [match ?x with _ => _ end] =>
             lazymatch x with
             | context [match _ with _ => _ end] => fail
             | _ => let E := fresh "E" in destruct x eqn:E; proj_simpl
             end
         end.

Lemma handshake_init (w : world) : handshake_inv (init w).
Proof.
  unfold handshake_inv, control_inv, loop_inv, memory_inv, idle_child.
  cbn. repeat split; try tauto; try lia.
Qed.

Ltac boolean_facts :=
  repeat match goal with
         | H : (_ <? _) = true |- _ => apply Z.ltb_lt in H
         | H : (_ <? _) = false |- _ => apply Z.ltb_ge in H
         | H : (_ >? _) = true |- _ => rewrite Z.gtb_ltb in H
         | H : (_ >? _) = false |- _ => rewrite Z.gtb_ltb in H
         | H : (_ =? _) = true |- _ => apply Z.eqb_eq in H
         | H : (_ =? _) = false |- _ => apply Z.eqb_neq in H
         | H : negb _ = true |- _ => apply negb_true_iff in H
         | H : negb _ = false |- _ => apply negb_false_iff in H
         end.

Ltac split_ifs :=
  repeat match goal with
         | |- context [if ?b then _ else _] =>
             let E := fresh "E" in destruct b eqn:E
         end.

Ltac table_facts :=
  repeat match goal with
         | H : array_get TEST_SIZES _ = Some _ |- _ =>
             let F := fresh "Hentry" in
             pose proof (test_sizes_entry _ _ H) as F;
             revert H
         end;
  intros.

Ltac finish_inv :=
  unfold idle_child, serving_child, REPEAT_COUNT in *;
  change NUM_TEST_SIZES with 8 in *;
  intuition (subst; try lia; try congruence; auto).

Ltac split_hyps :=
  repeat match goal with
         | H : _ /\ _ |- _ => destruct H
         end.

Ltac memory_facts :=
  repeat match goal with
         | H : fill_pattern _ _ = Some _ |- _ =>
             apply fill_pattern_capacity in H
         | H : memset _ _ _ = Some _ |- _ => apply memset_capacity in H
         | H : memcpy _ _ _ = Some _ |- _ => apply memcpy_capacity in H
         | H : array_set _ _ _ = Some _ |- _ => apply array_set_length in H
         end.

Lemma handshake_parent_step (s s' : state) :
  handshake_inv s -> parent_step s = Some s' -> handshake_inv s'.
Proof.
  intros Hinv Hstep. destruct_state s.
  unfold handshake_inv, control_inv, loop_inv, memory_inv, in_size_loop in *.
  proj_simpl.
  destruct ppc; open_step Hstep; subst s'; proj_simpl; split_ifs;
    split_hyps; boolean_facts; table_facts; memory_facts;
    rewrite ?wrap64_small by (change NUM_TEST_SIZES with 8 in *; lia);
    try (finish_inv; fail).
  Qed.

Lemma handshake_child_step (s s' : state) :
  handshake_inv s -> child_step s = Some s' -> handshake_inv s'.
Proof.
  intros Hinv Hstep. destruct_state s.
  unfold handshake_inv, control_inv, loop_inv, memory_inv, in_size_loop in *.
  proj_simpl.
  destruct cpc; open_step Hstep; subst s'; proj_simpl;
    destruct ppc; proj_simpl; split_ifs;
    split_hyps; boolean_facts; table_facts; memory_facts;
    try (finish_inv; fail);
    try (destruct lb; finish_inv; fail).
Qed.

Lemma alive_init (w : world) : alive_inv (init w).
Proof. unfold alive_inv. cbn. lia. Qed.

Lemma alive_step (a : actor) (s s' : state) :
  handshake_inv s -> alive_inv s -> step a s = Some s' -> alive_inv s'.
Proof.
  intros Hinv Halive Hstep. destruct_state s.
  unfold handshake_inv, control_inv, loop_inv, memory_inv, in_size_loop,
    alive_inv in *.
  proj_simpl.
  destruct a.
  - destruct ppc; open_step Hstep; subst s'; proj_simpl; split_ifs;
      split_hyps; boolean_facts; table_facts;
      rewrite ?wrap64_small by (change NUM_TEST_SIZES with 8 in *; lia);
      try (finish_inv; fail);
      try (intros; apply Halive; subst; lia).
  - destruct cpc; open_step Hstep; subst s'; proj_simpl; split_ifs;
      split_hyps; boolean_facts; table_facts;
      try (finish_inv; fail); try (destruct ppc; finish_inv; fail);
      try (intros; apply Halive; subst; lia).
Qed.


Lemma accesses_init (w : world) : accesses_inv (init w).
Proof.
  unfold accesses_inv, parent_accesses_inv, child_accesses_inv. cbn. tauto.
Qed.

Ltac eqb_back :=
  repeat match goal with
         | H : ?x <> ?y |- context [?x =? ?y] =>
             rewrite (proj2 (Z.eqb_neq x y) H)
         | H : ?x = ?y |- context [?x =? ?y] =>
             rewrite (proj2 (Z.eqb_eq x y) H)
         end.

Ltac access_simpl :=
  cbn [has_accessed since_own_post who kind what existsb access_eqb orb]
    in *.

Lemma accesses_step (a : actor) (s s' : state) :
  accesses_inv s -> step a s = Some s' -> accesses_inv s'.
Proof.
  intros Hinv Hstep. destruct_state s.
  unfold accesses_inv, parent_accesses_inv, child_accesses_inv in *.
  proj_simpl.
  destruct a.
  - destruct ppc; open_step Hstep; subst s'; proj_simpl; split_ifs;
      split_hyps; boolean_facts; access_simpl; eqb_back;
      try (intuition (subst; try lia; try congruence; auto); fail).
  - destruct cpc; open_step Hstep; subst s'; proj_simpl; split_ifs;
      split_hyps; boolean_facts; access_simpl; eqb_back;
      try (intuition (subst; try lia; try congruence; auto); fail).
Qed.

Lemma firstn_succ_nth {A : Type} (l : list A) :
  forall (n : nat) (x : A),
    nth_error l n = Some x -> firstn (S n) l = firstn n l ++ [x].
Proof.
  induction l as [|y l IH]; intros [|n] x H; try discriminate.
  - injection H as ->. reflexivity.
  - cbn [nth_error] in H. cbn [firstn app]. f_equal.
    apply (IH n x H).
Qed.

Lemma completed_sizes_succ (i size : Z) :
  array_get TEST_SIZES i = Some size ->
  flat_map shm_cycle (firstn (Z.to_nat (i + 1)) TEST_SIZES) =
    flat_map shm_cycle (firstn (Z.to_nat i) TEST_SIZES) ++ shm_cycle size.
Proof.
  unfold array_get. destruct (Z.leb_spec 0 i) as [Hi|]; [|discriminate].
  intros Hnth.
  replace (Z.to_nat (i + 1)) with (S (Z.to_nat i)) by lia.
  rewrite (firstn_succ_nth _ _ _ Hnth), flat_map_app.
  cbn [flat_map]. rewrite app_nil_r. reflexivity.
Qed.

Lemma shm_repeats_succ (size r : Z) :
  0 <= r < 5 ->
  shm_repeats (Z.to_nat (r + 1)) size 0 =
    shm_repeats (Z.to_nat r) size 0
    ++ [Ver size; Row "SHM-cpy  " size (r + 1)]
    ++ (if r =? 0 then [Verdict] else []).
Proof.
  intros Hr.
  assert (r = 0 \/ r = 1 \/ r = 2 \/ r = 3 \/ r = 4) as [->|[->|[->|[->| ->]]]]
    by lia; reflexivity.
Qed.

Lemma timeline_init (w : world) : timeline_inv w (init w).
Proof.
  unfold timeline_inv, cycle_progress. cbn. rewrite app_nil_r. reflexivity.
Qed.

Ltac split_ifs_all :=
  repeat match goal with
         | |- context [if ?b then _ else _] =>
             let E := fresh "E" in destruct b eqn:E
         | H : context [if ?b then _ else _] |- _ =>
             let E := fresh "E" in destruct b eqn:E
         end.

Ltac timeline_finish Htl :=
  subst; eqb_back; cbn [Z.eqb Pos.eqb] in *; split_ifs_all; boolean_facts;
  try lia; try congruence;
  repeat match goal with
         | H : array_get TEST_SIZES ?i = Some ?size
           |- context [firstn (Z.to_nat (?i + 1)) TEST_SIZES] =>
             rewrite (completed_sizes_succ i size H)
         end;
  rewrite ?shm_repeats_succ by lia;
  eqb_back; cbn [Z.eqb Pos.eqb];
  unfold shm_cycle;
  repeat match goal with
         | H : List.length ?t = 5%nat |- context [List.length ?t] =>
             rewrite H
         | H : ?r = 5 |- context [Z.to_nat ?r] => rewrite H
         end;
  change (Z.to_nat 5) with 5%nat in *;
  rewrite ?app_nil_r in *;
  rewrite ?Htl; cbn [app]; rewrite <- ?app_assoc; cbn [app];
  try reflexivity.

Lemma timeline_step (w0 : world) (a : actor) (s s' : state) :
  handshake_inv s -> timeline_inv w0 s -> step a s = Some s' ->
  timeline_inv w0 s'.
Proof.
  intros Hinv Htl Hstep. destruct_state s.
  unfold handshake_inv, control_inv, loop_inv, memory_inv, in_size_loop,
    timeline_inv, cycle_progress, child_verified in *.
  proj_simpl.
  destruct a.
  - destruct ppc; open_step Hstep; subst s'; proj_simpl;
      split_hyps; boolean_facts; table_facts; memory_facts;
      rewrite ?wrap64_small by (change NUM_TEST_SIZES with 8 in *; lia);
      cbn [output];
      rewrite ?timeline_app; cbn [timeline flat_map mark_of app];
      try (timeline_finish Htl; fail);
      try (destruct cpc; unfold idle_child, serving_child in *;
           try (exfalso; intuition congruence; fail);
           timeline_finish Htl; fail).
  - destruct cpc; open_step Hstep; subst s'; proj_simpl;
      split_hyps; boolean_facts; table_facts; memory_facts;
      cbn [output];
      rewrite ?timeline_app; cbn [timeline flat_map mark_of app];
      try (timeline_finish Htl; fail);
      try (destruct ppc; unfold idle_child, serving_child in *;
           try (exfalso; intuition congruence; fail);
           intuition (try congruence);
           timeline_finish Htl; fail).
Qed.

(** Everything that holds of the states the two processes can reach. *)
Lemma reachable_inv (w : world) (s : state) :
  reachable w s ->
  handshake_inv s /\ alive_inv s /\ accesses_inv s /\ timeline_inv w s.
Proof.
  induction 1 as [|a s s' Hreach (Hh & Hal & Hacc & Htl) Hstep].
  - split; [apply handshake_init|]. split; [apply alive_init|].
    split; [apply accesses_init | apply timeline_init].
  - split.
    + destruct a; [eapply handshake_parent_step | eapply handshake_child_step];
        eassumption.
    + split; [eapply alive_step; eassumption|].
      split; [eapply accesses_step; eassumption|].
      eapply timeline_step; eassumption.
Qed.

Lemma run_reachable (w : world) (schedule : list actor) :
  forall s s',
    reachable w s -> run schedule s = Some s' -> reachable w s'.
Proof.
  induction schedule as [|a rest IH]; intros s s' Hs Hrun.
  - injection Hrun as <-. exact Hs.
  - cbn [run] in Hrun. destruct (step a s) as [s1|] eqn:Hstep; [|discriminate].
    eapply IH; [|exact Hrun]. eapply reach_step; eassumption.
Qed.

Lemma run_app (xs ys : list actor) :
  forall s s1 s2,
    run xs s = Some s1 -> run ys s1 = Some s2 -> run (xs ++ ys) s = Some s2.
Proof.
  induction xs as [|a xs IH]; intros s s1 s2 H1 H2.
  - injection H1 as <-. exact H2.
  - cbn [run app] in *. destruct (step a s) as [s'|]; [|discriminate].
    eapply IH; eassumption.
Qed.

Lemma lively_init (w : world) :
  heap w (allocs w) <> None -> lively (init w).
Proof. intros H. unfold lively. cbn. split; [discriminate | intros _; exact H]. Qed.

Lemma lively_step (a : actor) (s s' : state) :
  lively s -> step a s = Some s' -> lively s'.
Proof.
  intros Hl Hstep. destruct_state s. unfold lively in *. proj_simpl.
  destruct a.
  - destruct ppc; open_step Hstep; subst s'; proj_simpl;
      cbn [heap allocs]; exact Hl.
  - destruct cpc; open_step Hstep; subst s'; proj_simpl; split_ifs;
      try (split; [discriminate | intros; discriminate]);
      try (destruct Hl as [Hl1 Hl2]; exfalso;
           first [ apply Hl1; reflexivity
                 | exact (Hl2 eq_refl eq_refl)
                 | apply Hl2; [reflexivity|assumption] ]).
Qed.

Ltac supply_results :=
  repeat match goal with
         | Hs : is_size_t ?n |- context [fill_pattern ?b ?n] =>
             let b' := fresh "b" in
             let Hf := fresh "Hf" in
             destruct (fill_pattern_spec b n Hs ltac:(lia))
               as (b' & Hf & _);
             rewrite Hf
         | |- context [array_set ?t ?i ?v] =>
             let t' := fresh "t" in
             let H1 := fresh "Hset" in
             let H2 := fresh "Hget" in
             destruct (array_set_get t i v ltac:(lia))
               as (t' & H1 & H2 & _);
             rewrite H1; cbv beta iota; rewrite ?H2
         | |- context [summarize ?n ?t REPEAT_COUNT] =>
             let st := fresh "st" in
             let H1 := fresh "Hsum" in
             destruct (summarize_total n t REPEAT_COUNT
                         ltac:(unfold REPEAT_COUNT; lia)) as (st & H1);
             rewrite H1
         | |- context [memset ?b ?v ?n] =>
             let b' := fresh "b" in
             let H1 := fresh "Hms" in
             let H2 := fresh "Hcap" in
             destruct (memset_ok b v n ltac:(cbn [capacity]; lia))
               as (b' & H1 & H2);
             rewrite H1; cbn [capacity] in H2
         | |- context [memcpy ?d ?src ?n] =>
             let b' := fresh "b" in
             let H1 := fresh "Hmc" in
             let H2 := fresh "Hcap" in
             destruct (memcpy_ok d src n ltac:(lia) ltac:(lia))
               as (b' & H1 & H2);
             rewrite H1
         | Hs : is_size_t ?n |- context [verify_pattern ?b ?n] =>
             let e := fresh "err" in
             let H1 := fresh "Hv" in
             destruct (verify_pattern_total b n Hs ltac:(lia)) as (e & H1);
             rewrite H1
         end.

Lemma test_sizes_lookup (i : Z) :
  0 <= i < NUM_TEST_SIZES ->
  exists size,
    array_get TEST_SIZES i = Some size /\ (size >? max_size) = false.
Proof.
  intros Hi. change NUM_TEST_SIZES with 8 in Hi.
  assert (i = 0 \/ i = 1 \/ i = 2 \/ i = 3 \/ i = 4 \/ i = 5 \/ i = 6 \/ i = 7)
    as [->|[->|[->|[->|[->|[->|[->| ->]]]]]]] by lia;
    eexists; split; reflexivity.
Qed.

Lemma progress (s : state) :
  handshake_inv s -> lively s -> p_pc (par s) <> P_done ->
  exists s',
    step (scheduled s) s = Some s' /\ steps_done s' = steps_done s + 1.
Proof.
  intros Hinv Hl Hnot. destruct_state s.
  unfold handshake_inv, control_inv, loop_inv, memory_inv, in_size_loop,
    lively in *.
  proj_simpl.
  destruct ppc, cpc; try (exfalso; apply Hnot; reflexivity);
    unfold idle_child, serving_child in *;
    try (exfalso; intuition congruence; fail);
    unfold scheduled, steps_done, child_rank; proj_simpl;
    split_hyps; table_facts; split_hyps;
    repeat match goal with
           | H : _ \/ _ |- _ => destruct H; try congruence; split_hyps
           end;
    try congruence;
    subst; cbn [Z.eqb Pos.eqb negb];
    cbv beta iota zeta
        delta [step parent_step child_step bind ret lift emit get_time_sec
               print_result print_summary call_verify_pattern alloc_aligned];
    proj_simpl;
    try match goal with
        | |- context [array_get TEST_SIZES ?i] =>
            destruct (Z.ltb_spec i NUM_TEST_SIZES) as [Hlt|Hge];
            [ let size := fresh "size" in
              let Ha := fresh "Ha" in
              let Hb := fresh "Hb" in
              destruct (test_sizes_lookup i ltac:(lia)) as (size & Ha & Hb);
              rewrite Ha, Hb
            | ]
        end;
    try match goal with
        | |- context [heap ?w (allocs ?w)] =>
            let E := fresh "E" in
            destruct (heap w (allocs w)) eqn:E;
            [ | exfalso; intuition congruence ]
        end;
    try match goal with
        | H : capacity ?b = max_size |- _ => rewrite ?H in *
        end;
    change max_size with 1073741824 in *;
    try match goal with
        | H : match ?x with Some _ => _ | None => _ end
          |- context [match ?x with Some _ => _ | None => _ end] =>
            destruct x; [ | exfalso; intuition congruence ]
        end;
    supply_results;
    unfold is_size_t, SIZE_MAX in *;
    eqb_back; split_ifs; boolean_facts;
    try (eexists; split; [reflexivity|]; proj_simpl;
         cbn [Z.eqb Pos.eqb]; eqb_back;
         change NUM_TEST_SIZES with 8 in *; unfold REPEAT_COUNT in *;
         rewrite ?wrap64_small by lia; lia).
Qed.

(** ** Termination of the protocol *)

Lemma step_preserves (a : actor) (s s' : state) :
  handshake_inv s -> alive_inv s -> step a s = Some s' ->
  handshake_inv s' /\ alive_inv s'.
Proof.
  intros Hh Ha Hstep. split.
  - destruct a; [eapply handshake_parent_step | eapply handshake_child_step];
      eassumption.
  - eapply alive_step; eassumption.
Qed.

(** Bounds on the step count, by program point. *)
Lemma steps_done_bounds (s : state) :
  handshake_inv s ->
  0 <= steps_done s <= TOTAL_STEPS /\
  (steps_done s = TOTAL_STEPS -> p_pc (par s) = P_done) /\
  (steps_done s = TOTAL_STEPS - 3 ->
   p_pc (par s) = P_join /\ c_pc (chi s) = C_poll) /\
  (p_pc (par s) = P_join \/ p_pc (par s) = P_done ->
   c_pc (chi s) <> C_alloc -> TOTAL_STEPS - 3 <= steps_done s).
Proof.
  intros Hinv. destruct_state s.
  unfold handshake_inv, control_inv, loop_inv, memory_inv, in_size_loop in *.
  proj_simpl. unfold steps_done, child_rank, TOTAL_STEPS. proj_simpl.
  change NUM_TEST_SIZES with 8 in *.
  destruct ppc; split_hyps; table_facts; split_hyps;
    change NUM_TEST_SIZES with 8 in *;
    destruct cpc; unfold idle_child, serving_child in *;
    try (exfalso; intuition congruence; fail);
    split_ifs; repeat split; intros; try lia; try congruence;
    try (exfalso; intuition congruence; fail).
Qed.

(** Under [scheduled] the two processes take [n] more steps, as long as
    the run is not over. *)
Lemma advance (n : nat) :
  forall s,
    handshake_inv s -> alive_inv s -> lively s ->
    steps_done s + Z.of_nat n <= TOTAL_STEPS ->
    exists schedule s',
      run schedule s = Some s' /\
      List.length schedule = n /\
      steps_done s' = steps_done s + Z.of_nat n /\
      handshake_inv s' /\ alive_inv s' /\ lively s'.
Proof.
  induction n as [|n IH]; intros s Hh Ha Hl Hn.
  - exists [], s. cbn [run List.length].
    split; [reflexivity|]. split; [reflexivity|]. split; [lia|]. auto.
  - assert (Hnot : p_pc (par s) <> P_done).
    { intros Hdone.
      destruct (steps_done_bounds s Hh) as (_ & _ & _ & Hlow).
      destruct_state s. proj_simpl. subst.
      unfold handshake_inv, control_inv, loop_inv in Hh. proj_simpl.
      unfold steps_done, TOTAL_STEPS in *. proj_simpl.
      change NUM_TEST_SIZES with 8 in *.
      destruct Hh as ((_ & _ & Hc) & (_ & Hsi) & _).
      destruct Hc as [-> | ->]; lia. }
    destruct (progress s Hh Hl Hnot) as (s1 & Hstep & Hdone).
    destruct (step_preserves _ _ _ Hh Ha Hstep) as (Hh1 & Ha1).
    pose proof (lively_step _ _ _ Hl Hstep) as Hl1.
    destruct (IH s1 Hh1 Ha1 Hl1 ltac:(lia))
      as (schedule & s' & Hrun & Hlen & Hsteps & Hh' & Ha' & Hl').
    exists (scheduled s :: schedule), s'.
    cbn [run List.length]. rewrite Hstep.
    split; [exact Hrun|]. split; [lia|]. split; [lia|]. auto.
Qed.

Lemma steps_done_init (w : world) : steps_done (init w) = 0.
Proof. reflexivity. Qed.

(** When the child's allocation succeeds, the benchmark can run to
    completion: the parent's [wait] returns and the child has exited with
    status 0. *)
Lemma complete_run (w : world) :
  heap w (allocs w) <> None ->
  exists schedule s,
    run schedule (init w) = Some s /\
    p_pc (par s) = P_done /\ c_pc (chi s) = C_exited 0.
Proof.
  intros Hheap.
  destruct (advance (Z.to_nat TOTAL_STEPS) (init w) (handshake_init w)
              (alive_init w) (lively_init w Hheap))
    as (schedule & s & Hrun & _ & Hsteps & Hh & _ & Hl).
  { rewrite steps_done_init. unfold TOTAL_STEPS. cbn. lia. }
  exists schedule, s. split; [exact Hrun|].
  destruct (steps_done_bounds s Hh) as (_ & Hdone & _).
  assert (Hp : p_pc (par s) = P_done).
  { apply Hdone. rewrite Hsteps, steps_done_init. unfold TOTAL_STEPS. cbn. lia. }
  split; [exact Hp|].
  destruct Hh as (Hc & _). unfold control_inv in Hc. rewrite Hp in Hc.
  destruct Hc as (_ & _ & [H0|H1]); [exact H0|].
  destruct Hl as (Hl & _). contradiction.
Qed.

(** ... and on the way it reaches the parent's [wait(NULL)] with the child
    polling. *)
Lemma run_to_join (w : world) :
  heap w (allocs w) <> None ->
  exists schedule s,
    run schedule (init w) = Some s /\
    p_pc (par s) = P_join /\ c_pc (chi s) = C_poll.
Proof.
  intros Hheap.
  destruct (advance (Z.to_nat (TOTAL_STEPS - 3)) (init w) (handshake_init w)
              (alive_init w) (lively_init w Hheap))
    as (schedule & s & Hrun & _ & Hsteps & Hh & _ & Hl).
  { rewrite steps_done_init. unfold TOTAL_STEPS. cbn. lia. }
  exists schedule, s. split; [exact Hrun|].
  destruct (steps_done_bounds s Hh) as (_ & _ & Hjoin & _).
  apply Hjoin. rewrite Hsteps, steps_done_init. unfold TOTAL_STEPS. cbn. lia.
Qed.

(** Once the parent is in [wait(NULL)], every step of either process is a
    step towards the end: it leaves the parent at the join or past it,
    writes nothing to [phase], adds no access of the parent, and counts. *)
Lemma closing_step (a : actor) (s s' : state) :
  handshake_inv s -> alive_inv s ->
  p_pc (par s) = P_join \/ p_pc (par s) = P_done ->
  step a s = Some s' ->
  (p_pc (par s') = P_join \/ p_pc (par s') = P_done) /\
  phase (ctrl s') = phase (ctrl s) /\
  accesses_of Parent (accesses s') = accesses_of Parent (accesses s) /\
  steps_done s' = steps_done s + 1.
Proof.
  intros Hinv Halive Hpc Hstep. destruct_state s.
  unfold handshake_inv, control_inv, loop_inv, memory_inv, alive_inv in *.
  proj_simpl. unfold steps_done, child_rank. proj_simpl.
  change NUM_TEST_SIZES with 8 in *.
  assert (Hc : cpc <> C_alloc /\ cpc <> C_exited 1).
  { apply Halive. destruct Hpc; subst; split_hyps; lia. }
  destruct Hc as (Hc1 & Hc2).
  destruct Hpc; subst; destruct a; open_step Hstep; subst s'; proj_simpl;
    unfold idle_child in *;
    try (exfalso; intuition congruence; fail);
    split_hyps; subst; cbn [Z.eqb Pos.eqb negb accesses_of filter who];
    (split; [tauto|]); (split; [reflexivity|]); (split; [reflexivity|]);
    try lia.
Qed.

Lemma closing_run (schedule : list actor) :
  forall s s',
    handshake_inv s -> alive_inv s ->
    p_pc (par s) = P_join \/ p_pc (par s) = P_done ->
    run schedule s = Some s' ->
    handshake_inv s' /\
    phase (ctrl s') = phase (ctrl s) /\
    accesses_of Parent (accesses s') = accesses_of Parent (accesses s) /\
    steps_done s' = steps_done s + Z.of_nat (List.length schedule).
Proof.
  induction schedule as [|a rest IH]; intros s s' Hh Ha Hpc Hrun.
  - injection Hrun as <-. cbn [List.length].
    split; [exact Hh|]. split; [reflexivity|]. split; [reflexivity|]. lia.
  - cbn [run] in Hrun. destruct (step a s) as [s1|] eqn:Hstep; [|discriminate].
    destruct (closing_step a s s1 Hh Ha Hpc Hstep) as (Hpc1 & Hph & Hacc & Hn).
    destruct (step_preserves a s s1 Hh Ha Hstep) as (Hh1 & Ha1).
    destruct (IH s1 s' Hh1 Ha1 Hpc1 Hrun) as (Hh' & Hph' & Hacc' & Hn').
    split; [exact Hh'|]. split; [congruence|]. split; [congruence|].
    cbn [List.length]. lia.
Qed.

(** C4: when the parent has reached [wait(NULL)] (line 156), the size table
    is exhausted and the final request is posted: [phase] is
    REQUEST_POSTED with [data_size = 0].  The join does not look at
    [phase]: it returns exactly when the child has exited.  From then on
    [phase] keeps its value (the child never posts a response again), the
    parent never touches the control record, and at most three steps
    remain; the child can always leave its loop with status 0, after which
    the parent's join completes. *)
Theorem shm_bench_termination (w : world) (s : state) :
  reachable w s ->
  p_pc (par s) = P_join ->
  si (par s) = NUM_TEST_SIZES /\
  phase (ctrl s) = REQUEST_POSTED /\
  data_size (ctrl s) = 0 /\
  (parent_step s <> None <-> exists status, c_pc (chi s) = C_exited status) /\
  (forall schedule s',
     run schedule s = Some s' ->
     phase (ctrl s') = REQUEST_POSTED /\
     accesses_of Parent (accesses s') = accesses_of Parent (accesses s) /\
     (List.length schedule <= 3)%nat) /\
  (exists schedule s',
     run schedule s = Some s' /\
     p_pc (par s') = P_done /\ c_pc (chi s') = C_exited 0).
Proof.
  intros Hreach Hpc.
  destruct (reachable_inv w s Hreach) as (Hh & Ha & _ & _).
  assert (Hfacts : si (par s) = NUM_TEST_SIZES /\ phase (ctrl s) = 1 /\
                   data_size (ctrl s) = 0).
  { destruct Hh as (Hc & Hl & _). unfold control_inv, loop_inv in *.
    rewrite Hpc in *. tauto. }
  destruct Hfacts as (Hsi & Hph & Hds).
  assert (Hchild : c_pc (chi s) <> C_alloc /\ c_pc (chi s) <> C_exited 1).
  { apply Ha. left. rewrite Hsi. reflexivity. }
  split; [exact Hsi|]. split; [exact Hph|]. split; [exact Hds|]. split.
  { unfold parent_step. rewrite Hpc. cbn [emit].
    destruct (c_pc (chi s)); split; intros H;
      try (exfalso; apply H; reflexivity);
      try (destruct H as (st & H); discriminate);
      try discriminate; eexists; reflexivity. }
  split.
  - intros schedule s' Hrun.
    destruct (closing_run schedule s s' Hh Ha (or_introl Hpc) Hrun)
      as (Hh' & Hph' & Hacc & Hn).
    split; [rewrite Hph'; exact Hph|]. split; [exact Hacc|].
    destruct (steps_done_bounds s Hh) as (_ & _ & _ & Hlow).
    destruct (steps_done_bounds s' Hh') as (Hup & _).
    specialize (Hlow (or_introl Hpc) (proj1 Hchild)). lia.
  - assert (Hl : lively s).
    { split; [exact (proj2 Hchild)|]. intros H. destruct Hchild. contradiction. }
    destruct (steps_done_bounds s Hh) as (Hup & _).
    destruct (advance (Z.to_nat (TOTAL_STEPS - steps_done s)) s Hh Ha Hl
                ltac:(lia))
      as (schedule & s' & Hrun & _ & Hsteps & Hh' & _ & Hl').
    exists schedule, s'. split; [exact Hrun|].
    destruct (steps_done_bounds s' Hh') as (_ & Hdone & _).
    assert (Hp : p_pc (par s') = P_done) by (apply Hdone; lia).
    split; [exact Hp|].
    destruct Hh' as (Hc & _). unfold control_inv in Hc. rewrite Hp in Hc.
    destruct Hc as (_ & _ & [H0|H1]); [exact H0|].
    destruct Hl' as (Hl' & _). contradiction.
Qed.

Lemma shm_bench_termination_witness :
  exists s,
    reachable steady_world s /\ p_pc (par s) = P_join /\
    phase (ctrl s) = REQUEST_POSTED /\ data_size (ctrl s) = 0 /\
    exists schedule s',
      run schedule s = Some s' /\
      p_pc (par s') = P_done /\ c_pc (chi s') = C_exited 0.
Proof.
  destruct (run_to_join steady_world ltac:(discriminate))
    as (schedule & s & Hrun & Hpc & _).
  assert (Hreach : reachable steady_world s)
    by (eapply run_reachable; [apply reach_init | exact Hrun]).
  exists s. split; [exact Hreach|]. split; [exact Hpc|].
  destruct (shm_bench_termination steady_world s Hreach Hpc)
    as (_ & Hph & Hds & _ & _ & Hend).
  split; [exact Hph|]. split; [exact Hds|]. exact Hend.
Defined.

(** ** Writes to the phase flag *)











(** ** The size table and the driver loops *)







Lemma summary_calls_app (xs ys : list mark) :
  summary_calls (xs ++ ys) = summary_calls xs ++ summary_calls ys.
Proof. apply flat_map_app. Qed.

Section Cycles.
Variable cycle : Z -> list mark.


Lemma summary_calls_cycles (sizes : list Z) :
  (forall size, summary_calls (cycle size) = [(REPEAT_COUNT, 5%nat)]) ->
  summary_calls (flat_map cycle sizes) =
    map (fun _ => (REPEAT_COUNT, 5%nat)) sizes.
Proof.
  intros Hc. induction sizes as [|size rest IH]; [reflexivity|].
  cbn [flat_map map]. rewrite summary_calls_app, Hc, IH. reflexivity.
Qed.

End Cycles.

(** The marks of a complete run of shm_bench. *)
Lemma shm_complete_timeline (w : world) (s : state) :
  reachable w s -> p_pc (par s) = P_done ->
  timeline (output (env s)) =
    timeline (output w) ++ flat_map shm_cycle TEST_SIZES.
Proof.
  intros Hreach Hpc.
  destruct (reachable_inv w s Hreach) as ((_ & Hl & _) & _ & _ & Htl).
  unfold timeline_inv, cycle_progress in Htl. unfold loop_inv in Hl.
  rewrite Hpc in *. destruct Hl as (_ & Hsi).
  rewrite Htl, Hsi, app_nil_r. reflexivity.
Qed.

(** The marks of shm_bench at any moment: the sizes that are complete, in
    table order, then the repeats of the size in progress. *)
Lemma shm_timeline (w : world) (s : state) :
  reachable w s ->
  timeline (output (env s)) =
    timeline (output w)
    ++ flat_map shm_cycle (firstn (Z.to_nat (si (par s))) TEST_SIZES)
    ++ cycle_progress s.
Proof. intros Hreach. apply (reachable_inv w s Hreach). Qed.

Lemma cycle_progress_summaries (s : state) :
  summary_calls (cycle_progress s) = [].
Proof.
  unfold cycle_progress, child_verified.
  assert (Hrep : forall n size r, summary_calls (shm_repeats n size r) = []).
  { induction n as [|n IH]; intros size r; [reflexivity|].
    cbn [shm_repeats]. destruct (r =? 0); cbn; apply IH. }
  destruct (p_pc (par s)); rewrite ?summary_calls_app, ?Hrep;
    try reflexivity.
  - destruct (c_pc (chi s)); try reflexivity.
    destruct (phase (ctrl s) =? 2); reflexivity.
  - destruct (r (par s) =? 0); reflexivity.
Qed.





(** ** Calls of the verifier *)






(** ** The precondition of [print_summary] *)

(** C10: [print_summary] reads [times[0]] before its loop, so it faults on
    an empty array whatever [count] is, and it divides the sum by [count].
    With [count >= 1] and an array of at least [count] elements every array
    access is in bounds (a row is printed) and the divisor is not zero.
    Every call site passes REPEAT_COUNT = 5, which converts to a nonzero
    double, together with a five-element array. *)
Theorem print_summary_precondition :
  (forall method size count w, print_summary method size [] count w = None) /\
  (forall method size times count w,
     1 <= count <= Z.of_nat (List.length times) ->
     count <> 0 /\
     exists e,
       print_summary method size times count w =
         Some (tt, mkWorld (clock w) (ticks w) (heap w) (allocs w)
                           (output w ++ [e])) /\
       mark_of e = [Sum method size count (List.length times)]) /\
  REPEAT_COUNT = 5 /\
  PrimFloat.eqb (double_of_Z REPEAT_COUNT) PrimFloat.zero = false /\
  (forall (max : Z) (attached_ptr local_buf : buffer) (w : world),
     max <= capacity local_buf -> max <= capacity attached_ptr ->
     exists local_buf' w' evs,
       bench_xpmem_memcpy attached_ptr local_buf max w
         = Some (local_buf', w') /\
       output w' = output w ++ evs /\
       summary_calls (timeline evs) =
         map (fun _ => (REPEAT_COUNT, 5%nat)) (sizes_run TEST_SIZES max)) /\
  (forall (max : Z) (attached_ptr : buffer) (w : world),
     max <= capacity attached_ptr ->
     exists w' evs,
       bench_xpmem_direct attached_ptr max w = Some (tt, w') /\
       output w' = output w ++ evs /\
       summary_calls (timeline evs) =
         map (fun _ => (REPEAT_COUNT, 5%nat)) (sizes_run TEST_SIZES max)) /\
  (forall (max : Z) (w : world),
     is_size_t max ->
     exists w' evs,
       bench_local_memcpy max w = Some (tt, w') /\
       output w' = output w ++ evs /\
       summary_calls (timeline evs) =
         if local_buffers_available w
         then map (fun _ => (REPEAT_COUNT, 5%nat)) (sizes_run TEST_SIZES max)
         else []) /\
  (forall (w : world) (s : state),
     reachable w s ->
     summary_calls (timeline (output (env s))) =
       summary_calls (timeline (output w))
       ++ map (fun _ => (REPEAT_COUNT, 5%nat))
              (firstn (Z.to_nat (si (par s))) TEST_SIZES)).
Proof.
  split; [reflexivity|].
  split.
  { intros method size times count w Hc. split; [lia|].
    destruct (summarize_total size times count Hc) as (st & Hst).
    eexists. split; [apply print_summary_run; exact Hst|]. reflexivity. }
  split; [reflexivity|]. split; [vm_compute; reflexivity|].
  split.
  { intros max attached_ptr local_buf w Hl Ha.
    destruct (bench_xpmem_memcpy_spec attached_ptr local_buf max w Hl Ha)
      as (lb & w' & evs & Hrun & _ & _ & _ & Hout & Htl).
    exists lb, w', evs. split; [exact Hrun|]. split; [exact Hout|].
    rewrite Htl. apply summary_calls_cycles. reflexivity. }
  split.
  { intros max attached_ptr w Ha.
    destruct (bench_xpmem_direct_spec attached_ptr max w Ha)
      as (w' & evs & Hrun & _ & _ & Hout & Htl).
    exists w', evs. split; [exact Hrun|]. split; [exact Hout|].
    rewrite Htl. apply summary_calls_cycles. reflexivity. }
  split.
  { intros max w Hmax.
    destruct (bench_local_memcpy_spec max w Hmax)
      as (w' & evs & Hrun & _ & _ & Hout & Htl).
    exists w', evs. split; [exact Hrun|]. split; [exact Hout|].
    rewrite Htl. destruct (local_buffers_available w); [|reflexivity].
    apply summary_calls_cycles. reflexivity. }
  intros w s Hreach.
  rewrite (shm_timeline w s Hreach), !summary_calls_app,
    cycle_progress_summaries, app_nil_r.
  apply f_equal. apply summary_calls_cycles. reflexivity.
Qed.

Lemma print_summary_precondition_witness :
  1 <= 5 <= Z.of_nat (List.length five_sevens) /\
  exists e,
    print_summary "SHM-cpy  " 4096 five_sevens 5 steady_world =
      Some (tt, mkWorld (clock steady_world) (ticks steady_world)
                        (heap steady_world) (allocs steady_world)
                        (output steady_world ++ [e])) /\
    mark_of e = [Sum "SHM-cpy  " 4096 5 5].
Proof.
  assert (Hc : 1 <= 5 <= Z.of_nat (List.length five_sevens)) by (cbn; lia).
  split; [exact Hc|].
  destruct print_summary_precondition as (_ & Hok & _).
  exact (proj2 (Hok "SHM-cpy  "%string 4096 five_sevens 5 steady_world Hc)).
Defined.

(** ** Further properties *)

(** X1: when the child's allocation succeeds, shm_bench can always run to
    completion from [fork]: some interleaving ends with the parent past
    its [wait(NULL)], the child exited with status 0, and the output
    holding the cycles of every entry of the table in order. *)
Theorem shm_bench_can_complete (w : world) :
  heap w (allocs w) <> None ->
  exists schedule s,
    run schedule (init w) = Some s /\
    p_pc (par s) = P_done /\ c_pc (chi s) = C_exited 0 /\
    timeline (output (env s)) =
      timeline (output w) ++ flat_map shm_cycle TEST_SIZES.
Proof.
  intros Hheap.
  destruct (complete_run w Hheap) as (schedule & s & Hrun & Hpc & Hexit).
  exists schedule, s. split; [exact Hrun|]. split; [exact Hpc|].
  split; [exact Hexit|].
  apply shm_complete_timeline; [|exact Hpc].
  eapply run_reachable; [apply reach_init | exact Hrun].
Qed.

Lemma shm_bench_can_complete_witness :
  heap steady_world (allocs steady_world) <> None /\
  exists schedule s,
    run schedule (init steady_world) = Some s /\
    p_pc (par s) = P_done /\ c_pc (chi s) = C_exited 0 /\
    timeline (output (env s)) = flat_map shm_cycle TEST_SIZES.
Proof.
  assert (Hheap : heap steady_world (allocs steady_world) <> None)
    by discriminate.
  split; [exact Hheap|].
  exact (shm_bench_can_complete steady_world Hheap).
Defined.

(** X2: when the descriptor has three fields and the setup calls succeed,
    the importer exits with status 0 after running the xpmem memcpy
    benchmark, then the direct benchmark, then (if its two buffers can be
    allocated) the local baseline, each over the entries of the table that
    fit the capacity read from the descriptor. *)
Theorem importer_runs_all_benchmarks (e : Importer.env) (d : descriptor)
    (contents : Z -> Z) (w : world) :
  segid_file e = Some d ->
  fields d = 3 ->
  is_size_t (Importer.max_size d) ->
  xpmem_get_result e <> -1 ->
  xpmem_attach_result e = Some contents ->
  heap w (allocs w) <> None ->
  exists w' evs,
    main e w = Some (0, w') /\
    output w' = output w ++ evs /\
    timeline evs =
      flat_map memcpy_cycle (sizes_run TEST_SIZES (Importer.max_size d))
      ++ flat_map (plain_cycle "xpmem-dir")
                  (sizes_run TEST_SIZES (Importer.max_size d))
      ++ (if local_buffers_available
               (mkWorld (clock w) (ticks w) (heap w) (S (allocs w)) [])
          then flat_map (plain_cycle "LOCAL-cpy")
                        (sizes_run TEST_SIZES (Importer.max_size d))
          else []).
Proof. apply main_runs_benchmarks. Qed.

Lemma importer_runs_all_benchmarks_witness :
  exists w' evs,
    main small_env steady_world = Some (0, w') /\
    output w' = output steady_world ++ evs /\
    timeline evs =
      memcpy_cycle 4096 ++ plain_cycle "xpmem-dir" 4096
      ++ plain_cycle "LOCAL-cpy" 4096.
Proof.
  destruct (importer_runs_all_benchmarks small_env
              (mkDescriptor 3 4660 4096 77) (fun i => i mod 256) steady_world
              eq_refl eq_refl
              ltac:(unfold is_size_t, SIZE_MAX; cbn; lia)
              ltac:(cbn; lia) eq_refl ltac:(discriminate))
    as (w' & evs & Hrun & Hout & Htl).
  exists w', evs. split; [exact Hrun|]. split; [exact Hout|].
  exact Htl.
Defined.
